(** * A shallow embedding of the generic doubly-linked list of [list.h]

    The header generates, for one element type [TYPE], a node struct, a
    sentinel struct holding [head], [tail], [length] and [destructor], a
    constructor function and a family of statement-expression macros
    ([LIST_APPEND], [LIST_PREPEND], [LIST_REMOVE], [LIST_DEL], [LIST_POPF],
    [LIST_POPB], the iterators and [LIST_DESTROY]).

    The macros work on raw pointers, so the embedding is a small machine:
    a store of nodes addressed by pointers, a log of destructor calls, and
    a monad of computations that either return or run into undefined
    behaviour.  Every macro is transcribed statement by statement, and a
    macro argument that the body uses more than once is evaluated at
    each use. *)

From stdpp Require Import gmap list.
From Stdlib Require Import ZArith Lia.

Local Open Scope Z_scope.

(** ** Pointers and machine integers *)

(** A non-null address.  Pointers are 64 bits wide, like [size_t]. *)
Abbreviation addr := positive.

(** A pointer is [NULL] or an address. *)
Abbreviation ptr := (option addr).
Abbreviation NULL := (@None addr).

(** The greatest [size_t]; also the greatest address. *)
Definition SIZE_MAX : Z := 18446744073709551615.

(** Arithmetic on [size_t] wraps around modulo [SIZE_MAX + 1]. *)
Definition wrap (z : Z) : Z := z mod (SIZE_MAX + 1).

(** The two boundary fields of the sentinel and the two link fields of a
    node, by which the generic macros are parametrised. *)
Inductive boundary := Fhead | Ftail.
Inductive link := Fnext | Fprev.

(** The ways a macro can leave defined behaviour. *)
Inductive fault :=
  | NullDeref      (* a field of the null pointer is read or written *)
  | InvalidDeref   (* a field of a node that is not allocated *)
  | InvalidFree    (* free of a pointer that is not allocated *)
  | OutOfBounds.   (* the initializer array is read past its end *)

(** The result of running a piece of code: it returns, its behaviour is
    undefined, or the iteration budget of a [while] loop ran out. *)
Inductive outcome (A : Type) :=
  | Ret (a : A)
  | Undef (f : fault)
  | OutOfFuel.
Arguments Ret {A} a.
Arguments Undef {A} f.
Arguments OutOfFuel {A}.

Section GenericList.

(** [T] is the macro parameter [TYPE]; [fn] is the type of the function
    pointers that can be stored in the [destructor] field. *)
Context {T fn : Type}.

(** ** The generated structs *)

(** [struct list_T] *)
Record list_node := Node {
  next : ptr;
  prev : ptr;
  entry : T
}.

(** [struct list_sentinal_T]; a null [destructor] is [None]. *)
Record list_sentinal := Sentinal {
  head : ptr;
  tail : ptr;
  length : Z;
  destructor : option fn
}.

(** The memory: the allocated nodes, and the destructor calls made so far
    (oldest first), each with the function called and its argument.  A
    destructor is the caller's code; all the list sees of it is the call. *)
Record mem := Mem {
  nodes : gmap addr list_node;
  calls : list (fn * T)
}.

(** ** The monad of computations *)

Definition M (A : Type) : Type := mem -> outcome (A * mem).

Definition ret {A} (a : A) : M A := fun m => Ret (a, m).

Definition bind {A B} (c : M A) (k : A -> M B) : M B := fun m =>
  match c m with
  | Ret (a, m') => k a m'
  | Undef f => Undef f
  | OutOfFuel => OutOfFuel
  end.

Definition undefined {A} (f : fault) : M A := fun _ => Undef f.
Definition out_of_fuel {A} : M A := fun _ => OutOfFuel.

Notation "x <- c1 ;; c2" := (bind c1 (fun x => c2))
  (at level 100, c1 at next level, right associativity).
Notation "c1 ;; c2" := (bind c1 (fun _ => c2))
  (at level 100, right associativity).

(** ** Macro arguments *)

(** A macro argument is the text of an expression: the macro body
    evaluates it wherever it uses it, each time in the state of that
    point.  An [expr A] is such an expression; it may read the sentinel
    and the memory. *)
Definition expr (A : Type) : Type := list_sentinal -> M A.

(** An argument whose value is the same at every use: a constant, or a
    variable of the caller that the macro does not write. *)
Definition local {A} (a : A) : expr A := fun _ => ret a.

(** ** Field access *)

(** [*p] as an rvalue. *)
Definition load (p : ptr) : M list_node := fun m =>
  match p with
  | None => Undef NullDeref
  | Some a =>
      match nodes m !! a with
      | Some n => Ret (n, m)
      | None => Undef InvalidDeref
      end
  end.

(** [*p = n]. *)
Definition store (p : ptr) (n : list_node) : M unit := fun m =>
  match p with
  | None => Undef NullDeref
  | Some a =>
      match nodes m !! a with
      | Some _ => Ret (tt, Mem (<[a := n]> (nodes m)) (calls m))
      | None => Undef InvalidDeref
      end
  end.

Definition get_link (d : link) (n : list_node) : ptr :=
  match d with Fnext => next n | Fprev => prev n end.

Definition set_link (d : link) (q : ptr) (n : list_node) : list_node :=
  match d with
  | Fnext => Node q (prev n) (entry n)
  | Fprev => Node (next n) q (entry n)
  end.

(** [p->direction] *)
Definition load_link (d : link) (p : ptr) : M ptr :=
  n <- load p ;; ret (get_link d n).

(** [p->direction = q] *)
Definition store_link (d : link) (p q : ptr) : M unit :=
  n <- load p ;; store p (set_link d q n).

(** [p->entry] *)
Definition load_entry (p : ptr) : M T :=
  n <- load p ;; ret (entry n).

(** [p->entry = v] *)
Definition store_entry (p : ptr) (v : T) : M unit :=
  n <- load p ;; store p (Node (next n) (prev n) v).

(** [list->sentinal] and [list->sentinal = q] *)
Definition get_boundary (s : boundary) (list : list_sentinal) : ptr :=
  match s with Fhead => head list | Ftail => tail list end.

Definition set_boundary (s : boundary) (q : ptr) (list : list_sentinal)
  : list_sentinal :=
  match s with
  | Fhead => Sentinal q (tail list) (length list) (destructor list)
  | Ftail => Sentinal (head list) q (length list) (destructor list)
  end.

Definition set_length (z : Z) (list : list_sentinal) : list_sentinal :=
  Sentinal (head list) (tail list) z (destructor list).

(** The argument [(list)->head] or [(list)->tail] of a call such as
    [LIST_REMOVE(&l, l.head)]: it reads the field of the sentinel at
    every use. *)
Definition boundary_of (b : boundary) : expr ptr := fun list =>
  ret (get_boundary b list).

(** ** The allocator *)

(** The highest allocated address, 0 when nothing is allocated. *)
Definition heap_top (h : gmap addr list_node) : Z :=
  foldr (fun a acc => Z.max (Z.pos a) acc) 0 (elements (dom h)).

(** [malloc(sizeof(struct list_T))]: the address above every allocated
    one, or [NULL] when the address space has no such address left.  The
    block only enters [nodes] when its fields are written, see [init]. *)
Definition malloc : M ptr := fun m =>
  let a := heap_top (nodes m) + 1 in
  Ret (if decide (a <= SIZE_MAX) then Some (Z.to_pos a) else NULL, m).

(** The stores [p->next = NULL; p->prev = NULL] to a block that [malloc]
    has just returned.  They fault on the null pointer; the block enters
    [nodes] when its entry is stored, see [init]. *)
Definition null_links (p : ptr) : M unit := fun m =>
  match p with
  | None => Undef NullDeref
  | Some _ => Ret (tt, m)
  end.

(** The store [p->entry = v] that completes a block returned by [malloc],
    whose links [nx] and [pv] have been stored: the block becomes a
    node. *)
Definition init (p : ptr) (nx pv : ptr) (v : T) : M unit := fun m =>
  match p with
  | None => Undef NullDeref
  | Some a => Ret (tt, Mem (<[a := Node nx pv v]> (nodes m)) (calls m))
  end.

(** [free(p)]; [free(NULL)] does nothing. *)
Definition free (p : ptr) : M unit := fun m =>
  match p with
  | None => Ret (tt, m)
  | Some a =>
      match nodes m !! a with
      | Some _ => Ret (tt, Mem (delete a (nodes m)) (calls m))
      | None => Undef InvalidFree
      end
  end.

(** [d(v)], a call through the function pointer [d]. *)
Definition call (d : fn) (v : T) : M unit := fun m =>
  Ret (tt, Mem (nodes m) (calls m ++ [(d, v)])).

(** ** The macros *)

(** [_LIST_ADD(list, elem, top, bottom, direction, reverse)].  The
    argument [elem] is evaluated where the body stores it, after [malloc]
    and the stores of the two null links.  The new block takes its
    address in [nodes] when the entry is stored, so an argument that
    allocates list nodes of its own is outside this model.  The value of
    the statement expression is that of [++(list)->length]. *)
Definition _LIST_ADD (list : list_sentinal) (elem : expr T)
    (top bottom : boundary) (direction reverse : link)
  : M (Z * list_sentinal) :=
  new_entry <- malloc ;;
  null_links new_entry ;;
  v <- elem list ;;
  init new_entry NULL NULL v ;;
  let list :=
    if get_boundary bottom list is None
    then set_boundary bottom new_entry list else list in
  list <-
    (if get_boundary top list is None
     then ret (set_boundary top new_entry list)
     else
       store_link direction (get_boundary top list) new_entry ;;
       store_link reverse new_entry (get_boundary top list) ;;
       ret (set_boundary top new_entry list)) ;;
  let len := wrap (length list + 1) in
  ret (len, set_length len list).

Definition LIST_APPEND (list : list_sentinal) (elem : expr T) :=
  _LIST_ADD list elem Ftail Fhead Fnext Fprev.

Definition LIST_PREPEND (list : list_sentinal) (elem : expr T) :=
  _LIST_ADD list elem Fhead Ftail Fprev Fnext.

(** [LIST_REMOVE(list, elem)].  The body uses the argument [elem] at
    eight places and evaluates it at each of them, also after it has
    written to the neighbours and to [head]: [e1] to [e8] are its eight
    values.  In an assignment the target is evaluated before the value.
    The value of the statement expression is that of
    [(list)->length--], a post-decrement. *)
Definition LIST_REMOVE (list : list_sentinal) (elem : expr ptr)
  : M (Z * list_sentinal) :=
  e1 <- elem list ;;
  p <- load_link Fprev e1 ;;
  (if p is Some _
   then e2 <- elem list ;;
        p <- load_link Fprev e2 ;;
        e3 <- elem list ;;
        n <- load_link Fnext e3 ;;
        store_link Fnext p n
   else ret tt) ;;
  e4 <- elem list ;;
  n <- load_link Fnext e4 ;;
  (if n is Some _
   then e5 <- elem list ;;
        n <- load_link Fnext e5 ;;
        e6 <- elem list ;;
        p <- load_link Fprev e6 ;;
        store_link Fprev n p
   else ret tt) ;;
  e7 <- elem list ;;
  list <-
    (if decide (e7 = head list)
     then q <- load_link Fnext (head list) ;; ret (set_boundary Fhead q list)
     else ret list) ;;
  e8 <- elem list ;;
  list <-
    (if decide (e8 = tail list)
     then q <- load_link Fprev (tail list) ;; ret (set_boundary Ftail q list)
     else ret list) ;;
  let len := length list in
  ret (len, set_length (wrap (len - 1)) list).

(** [LIST_DEL(list, elem)].  The argument [elem] is passed on to
    [LIST_REMOVE] as it is and evaluated again, after the removal, for
    [(elem)->entry] and for [free(elem)].  The last statement is
    [free(elem)], so the macro has no value. *)
Definition LIST_DEL (list : list_sentinal) (elem : expr ptr)
  : M list_sentinal :=
  r <- LIST_REMOVE list elem ;;
  let list := r.2 in
  (if destructor list is Some d
   then e <- elem list ;; v <- load_entry e ;; call d v
   else ret tt) ;;
  e <- elem list ;;
  free e ;;
  ret list.

(** [_LIST_POP(list, sentinal)].  The node is copied into the variable
    [__list_internal_temp] first, and that variable is the argument of
    [LIST_REMOVE]. *)
Definition _LIST_POP (list : list_sentinal) (sentinal : boundary)
  : M (T * list_sentinal) :=
  let __list_internal_temp := get_boundary sentinal list in
  r <- LIST_REMOVE list (local __list_internal_temp) ;;
  let list := r.2 in
  __list_internal_retval <- load_entry __list_internal_temp ;;
  free __list_internal_temp ;;
  ret (__list_internal_retval, list).

Definition LIST_POPF (list : list_sentinal) := _LIST_POP list Fhead.
Definition LIST_POPB (list : list_sentinal) := _LIST_POP list Ftail.

(** ** The iterators

    [callback] is the block of caller code run for each node; it sees the
    loop variable [var] and works on the caller's variables, of type [St].
    A [while] loop gets an iteration budget. *)

(** The loop [while (var) { callback; var = var->direction; }]. *)
Fixpoint for_each_loop {St} (fuel : nat) (direction : link)
    (callback : ptr -> St -> M St) (var : ptr) (s : St) : M St :=
  match var with
  | None => ret s
  | Some _ =>
      match fuel with
      | O => out_of_fuel
      | S fuel =>
          s <- callback var s ;;
          var <- load_link direction var ;;
          for_each_loop fuel direction callback var s
      end
  end.

(** [_LIST_FOR_EACH(list, var, sentinal, direction, callback)] *)
Definition _LIST_FOR_EACH {St} (fuel : nat) (list : list_sentinal)
    (sentinal : boundary) (direction : link)
    (callback : ptr -> St -> M St) (s : St) : M St :=
  let var := get_boundary sentinal list in
  for_each_loop fuel direction callback var s.

Definition LIST_FOR_EACH {St} fuel list (callback : ptr -> St -> M St) :=
  _LIST_FOR_EACH fuel list Fhead Fnext callback.

Definition LIST_FOR_EACH_REV {St} fuel list
    (callback : ptr -> St -> M St) :=
  _LIST_FOR_EACH fuel list Ftail Fprev callback.

(** The loop
    [while (var) { callback; var = temp; if (var) temp = var->direction; }]. *)
Fixpoint for_each_safe_loop {St} (fuel : nat) (direction : link)
    (callback : ptr -> St -> M St) (var temp : ptr) (s : St) : M St :=
  match var with
  | None => ret s
  | Some _ =>
      match fuel with
      | O => out_of_fuel
      | S fuel =>
          s <- callback var s ;;
          let var := temp in
          temp <- (if var is Some _ then load_link direction var
                   else ret temp) ;;
          for_each_safe_loop fuel direction callback var temp s
      end
  end.

(** [_LIST_FOR_EACH_SAFE(list, var, temp, sentinal, direction, callback)] *)
Definition _LIST_FOR_EACH_SAFE {St} (fuel : nat) (list : list_sentinal)
    (sentinal : boundary) (direction : link)
    (callback : ptr -> St -> M St) (s : St) : M St :=
  let var := get_boundary sentinal list in
  let temp := NULL in
  temp <- (if var is Some _ then load_link direction var else ret temp) ;;
  for_each_safe_loop fuel direction callback var temp s.

Definition LIST_FOR_EACH_SAFE {St} fuel list
    (callback : ptr -> St -> M St) :=
  _LIST_FOR_EACH_SAFE fuel list Fhead Fnext callback.

Definition LIST_FOR_EACH_REV_SAFE {St} fuel list
    (callback : ptr -> St -> M St) :=
  _LIST_FOR_EACH_SAFE fuel list Ftail Fprev callback.

(** [LIST_DESTROY(list)]: the callback is [{ LIST_DEL(list, var); }], and
    the caller's variable it works on is the sentinel itself. *)
Definition LIST_DESTROY (fuel : nat) (list : list_sentinal)
  : M list_sentinal :=
  LIST_FOR_EACH_SAFE fuel list
    (fun __list_internal_var list =>
       LIST_DEL list (local __list_internal_var))
    list.

(** ** The constructor *)

(** [initializer[i]] *)
Definition read_array (initializer : list T) (i : Z) : M T :=
  match initializer !! Z.to_nat i with
  | Some v => ret v
  | None => undefined OutOfBounds
  end.

(** The loop [for (i = ...; i < len; i++) LIST_APPEND(&data, initializer[i])]
    with [k] iterations left, that is [k = len - i].  The array is read
    by the macro, where it evaluates its argument [initializer[i]]. *)
Fixpoint new_list_loop (initializer : list T) (k : nat) (i : Z)
    (data : list_sentinal) : M list_sentinal :=
  match k with
  | O => ret data
  | S k =>
      r <- LIST_APPEND data (fun _ => read_array initializer i) ;;
      new_list_loop initializer k (i + 1) r.2
  end.

(** [new_list_T(initializer, len, d)]; a null [initializer] is [None]. *)
Definition new_list (initializer : option (list T)) (len : Z)
    (d : option fn) : M list_sentinal :=
  let data := Sentinal NULL NULL 0 d in
  match initializer with
  | None => ret data
  | Some initializer => new_list_loop initializer (Z.to_nat len) 0 data
  end.

End GenericList.

Arguments list_node : clear implicits.
Arguments list_sentinal : clear implicits.
Arguments mem : clear implicits.
Arguments M : clear implicits.
Arguments expr : clear implicits.

Notation "x <- c1 ;; c2" := (bind c1 (fun x => c2))
  (at level 100, c1 at next level, right associativity).
Notation "c1 ;; c2" := (bind c1 (fun _ => c2))
  (at level 100, right associativity).

Abbreviation llen := Datatypes.length.

(** ** The list a sentinel stands for *)

Section Representation.

Context {T fn : Type}.
Implicit Types (l : list_sentinal fn) (m : mem T fn).
Implicit Types (h : gmap addr (list_node T)) (xs : list (addr * T)).

(** The cell before position [i], if any. *)
Definition pred_at {A} (ys : list A) (i : nat) : option A :=
  match i with O => None | S j => ys !! j end.

(** [xs] lists the nodes of a chain, each with its address and its entry:
    every node is allocated, its [next] is the address that follows it in
    [xs] and its [prev] the one before it, null at the two ends. *)
Definition linked h xs : Prop :=
  forall i a v, xs !! i = Some (a, v) ->
    h !! a = Some (Node (fst <$> xs !! S i) (fst <$> pred_at xs i) v).

(** Allocated addresses fit in a pointer. *)
Definition heap_ok h : Prop :=
  forall a n, h !! a = Some n -> Z.pos a <= SIZE_MAX.

(** The sentinel [l] describes, in memory [m], the list of nodes [xs]. *)
Record is_list l m xs : Prop := IsList {
  il_nodup : NoDup xs.*1;
  il_linked : linked (nodes m) xs;
  il_head : head l = fst <$> xs !! O;
  il_tail : tail l = fst <$> xs !! Nat.pred (llen xs);
  il_length : length l = Z.of_nat (llen xs);
  il_heap : heap_ok (nodes m)
}.

(** [e] can be reached from [p] by following [next] links: the nodes
    linked into a list are those reachable from its head. *)
Inductive linked_from h : ptr -> addr -> Prop :=
  | linked_here a n : h !! a = Some n -> linked_from h (Some a) a
  | linked_next a n e :
      h !! a = Some n -> linked_from h (next n) e ->
      linked_from h (Some a) e.

(** [q->direction = v] when [q] is not null *)
Definition patch (d : link) (q v : ptr) h :=
  match q with Some a => alter (set_link d v) a h | None => h end.

(** The store after [LIST_REMOVE] of the node at position [i]. *)
Definition unlinked h xs (i : nat) :=
  patch Fprev (fst <$> xs !! S i) (fst <$> pred_at xs i)
    (patch Fnext (fst <$> pred_at xs i) (fst <$> xs !! S i) h).

(** The sentinel after [LIST_REMOVE] of the node at position [i]. *)
Definition unlinked_sentinal l xs (i : nat) (e : addr) : list_sentinal fn :=
  Sentinal (if decide (Some e = head l) then fst <$> xs !! S i else head l)
           (if decide (Some e = tail l) then fst <$> pred_at xs i else tail l)
           (length l - 1) (destructor l).

(** The store after [_LIST_ADD] has put a node at [a]. *)
Definition added h (direction reverse : link) (t : ptr) (a : addr) (v : T) :=
  <[a := set_link reverse t (Node NULL NULL v)]> (patch direction t (Some a) h).

Definition added_sentinal l (top bottom : boundary) (a : addr) :=
  set_length (length l + 1)
    (set_boundary top (Some a)
       (if get_boundary bottom l is None
        then set_boundary bottom (Some a) l else l)).

(** The destructor calls [LIST_DEL] makes for an entry [v]. *)
Definition destructor_calls (d : option fn) (vs : list T) : list (fn * T) :=
  match d with Some d => (fun v => (d, v)) <$> vs | None => [] end.

(** What [LIST_DESTROY] leaves of a list [xs]. *)
Record destroyed l m xs l' m' : Prop := Destroyed {
  de_head : head l' = None;
  de_tail : tail l' = None;
  de_length : length l' = 0;
  de_destructor : destructor l' = destructor l;
  de_calls : calls m' = calls m ++ destructor_calls (destructor l) xs.*2;
  de_freed : forall a, a ∈ xs.*1 -> nodes m' !! a = None;
  de_others : forall a, a ∉ xs.*1 -> nodes m' !! a = nodes m !! a;
  de_heap : heap_ok (nodes m')
}.

(** A callback that reads the list and records [g] of each node. *)
Definition records {B} xs m (g : addr * T -> B)
    (callback : ptr -> list B -> M T fn (list B)) : Prop :=
  forall j a v acc, xs !! j = Some (a, v) ->
    callback (Some a) acc m = Ret (acc ++ [g (a, v)], m).

(** The callback [{ acc = acc ++ [var->entry]; }] *)
Definition collect (var : ptr) (acc : list T) : M T fn (list T) :=
  bind (load_entry var) (fun v => ret (acc ++ [v])).

(** The callback [{ acc = acc ++ [var]; }] *)
Definition visit (var : ptr) (acc : list ptr) : M T fn (list ptr) :=
  ret (acc ++ [var]).

(** The states a list can be in: built by the constructor, then changed
    by the macros, whose element and node arguments are variables of the
    caller.  [LIST_REMOVE] and [LIST_DEL] are given a variable that holds
    a node linked into the list; a macro whose behaviour is undefined
    yields no state. *)
Inductive reachable : list_sentinal fn -> mem T fn -> Prop :=
  | reach_new_list m0 initializer len d l m :
      heap_ok (nodes m0) ->
      new_list initializer len d m0 = Ret (l, m) -> reachable l m
  | reach_append l m v r l' m' :
      reachable l m ->
      LIST_APPEND l (local v) m = Ret ((r, l'), m') -> reachable l' m'
  | reach_prepend l m v r l' m' :
      reachable l m ->
      LIST_PREPEND l (local v) m = Ret ((r, l'), m') -> reachable l' m'
  | reach_remove l m e r l' m' :
      reachable l m -> linked_from (nodes m) (head l) e ->
      LIST_REMOVE l (local (Some e)) m = Ret ((r, l'), m') -> reachable l' m'
  | reach_del l m e l' m' :
      reachable l m -> linked_from (nodes m) (head l) e ->
      LIST_DEL l (local (Some e)) m = Ret (l', m') -> reachable l' m'
  | reach_popf l m v l' m' :
      reachable l m ->
      LIST_POPF l m = Ret ((v, l'), m') -> reachable l' m'
  | reach_popb l m v l' m' :
      reachable l m ->
      LIST_POPB l m = Ret ((v, l'), m') -> reachable l' m'
  | reach_destroy l m fuel l' m' :
      reachable l m ->
      LIST_DESTROY fuel l m = Ret (l', m') -> reachable l' m'.

(** The callback [{ LIST_DEL(list, var); }], as in [LIST_DESTROY]. *)
Definition delete_each (var : ptr) l : M T fn (list_sentinal fn) :=
  LIST_DEL l (local var).

(** The callback [{ if (p(var->entry)) LIST_DEL(list, var); }] *)
Definition delete_if (p : T -> bool) (var : ptr) l
  : M T fn (list_sentinal fn) :=
  bind (load_entry var)
    (fun v => if p v then LIST_DEL l (local var) else ret l).

(** The callback [{ var->entry = f(var->entry); }] *)
Definition update (f : T -> T) (var : ptr) (s : unit) : M T fn unit :=
  bind (load_entry var) (fun v => bind (store_entry var (f v)) (fun _ => ret s)).

(** One macro applied to a list within its contract, its element or node
    argument a variable of the caller: [LIST_REMOVE] and [LIST_DEL] are
    given a variable that holds a node linked into the list. *)
Inductive step : list_sentinal fn -> mem T fn ->
                 list_sentinal fn -> mem T fn -> Prop :=
  | step_append l m v r l' m' :
      LIST_APPEND l (local v) m = Ret ((r, l'), m') -> step l m l' m'
  | step_prepend l m v r l' m' :
      LIST_PREPEND l (local v) m = Ret ((r, l'), m') -> step l m l' m'
  | step_remove l m e r l' m' :
      linked_from (nodes m) (head l) e ->
      LIST_REMOVE l (local (Some e)) m = Ret ((r, l'), m') -> step l m l' m'
  | step_del l m e l' m' :
      linked_from (nodes m) (head l) e ->
      LIST_DEL l (local (Some e)) m = Ret (l', m') -> step l m l' m'
  | step_popf l m v l' m' :
      LIST_POPF l m = Ret ((v, l'), m') -> step l m l' m'
  | step_popb l m v l' m' :
      LIST_POPB l m = Ret ((v, l'), m') -> step l m l' m'
  | step_destroy l m fuel l' m' :
      LIST_DESTROY fuel l m = Ret (l', m') -> step l m l' m'.

(** What a traversal that deletes some of the nodes [xs] leaves: the
    list [ys], the destructor called on [vs], untouched nodes elsewhere. *)
Record filtered l m xs l' m' (ys : list (addr * T)) (vs : list T) : Prop := {
  fi_list : is_list l' m' ys;
  fi_destructor : destructor l' = destructor l;
  fi_calls : calls m' = calls m ++ destructor_calls (destructor l) vs;
  fi_freed : forall a, a ∈ xs.*1 -> a ∉ ys.*1 -> nodes m' !! a = None;
  fi_others : forall a, a ∉ xs.*1 -> nodes m' !! a = nodes m !! a
}.

End Representation.

(** ** Sample states *)

Module Sample.

(** Entries are integers; function pointers are numbered. *)
Definition mem0 : mem Z nat := Mem ∅ [].

Definition list0 : list_sentinal nat := Sentinal NULL NULL 0 (Some 7%nat).

(** The list [new_list] builds from the array [{10, 20, 30}] in [mem0]. *)
Definition list3 : list_sentinal nat :=
  Sentinal (Some 1%positive) (Some 3%positive) 3 (Some 7%nat).

Definition mem3 : mem Z nat :=
  Mem (<[3%positive := Node NULL (Some 2%positive) 30]>
       (<[2%positive := Node (Some 3%positive) (Some 1%positive) 20]>
        (<[1%positive := Node (Some 2%positive) NULL 10]> ∅))) [].

Definition nodes3 : list (addr * Z) :=
  [(1%positive, 10); (2%positive, 20); (3%positive, 30)].

(** The state after [LIST_REMOVE] of the middle node: node 2 is still
    allocated, with its old links, but no longer linked into the list. *)
Definition list2 : list_sentinal nat :=
  Sentinal (Some 1%positive) (Some 3%positive) 2 (Some 7%nat).

Definition mem2 : mem Z nat :=
  Mem (<[3%positive := Node NULL (Some 1%positive) 30]>
       (<[2%positive := Node (Some 3%positive) (Some 1%positive) 20]>
        (<[1%positive := Node (Some 3%positive) NULL 10]> ∅))) [].

(** [mem3] with a second list of one node in the same memory. *)
Definition mem5 : mem Z nat :=
  Mem (<[4%positive := Node NULL NULL 40]> (nodes mem3)) [].

Definition list4 : list_sentinal nat :=
  Sentinal (Some 4%positive) (Some 4%positive) 1 None.

Definition nodes4 : list (addr * Z) := [(4%positive, 40)].

(** The state after [LIST_POPF] on [list3] in [mem5]. *)
Definition list3_popped : list_sentinal nat :=
  Sentinal (Some 2%positive) (Some 3%positive) 2 (Some 7%nat).

Definition mem5_popped : mem Z nat :=
  Mem (<[4%positive := Node NULL NULL 40]>
       (<[3%positive := Node NULL (Some 2%positive) 30]>
        (<[2%positive := Node (Some 3%positive) NULL 20]> ∅))) [].

(** The list [new_list] builds from the array [{10, 20}] in [mem0]. *)
Definition pair_list : list_sentinal nat :=
  Sentinal (Some 1%positive) (Some 2%positive) 2 (Some 7%nat).

Definition pair_mem : mem Z nat :=
  Mem (<[2%positive := Node NULL (Some 1%positive) 20]>
       (<[1%positive := Node (Some 2%positive) NULL 10]> ∅)) [].

(** The state after [LIST_REMOVE(&l, l.head)] on [pair_list]. *)
Definition pair_list_removed : list_sentinal nat :=
  Sentinal (Some 2%positive) NULL 1 (Some 7%nat).

Definition pair_mem_removed : mem Z nat :=
  Mem (<[2%positive := Node NULL NULL 20]>
       (<[1%positive := Node (Some 2%positive) NULL 10]> ∅)) [].

(** The state after [LIST_DEL(&l, l.head)] on [list3] in [mem3]. *)
Definition list3_head_deleted : list_sentinal nat :=
  Sentinal (Some 2%positive) (Some 3%positive) 2 (Some 7%nat).

Definition mem3_head_deleted : mem Z nat :=
  Mem (<[3%positive := Node NULL (Some 2%positive) 30]>
       (<[1%positive := Node (Some 2%positive) NULL 10]> ∅)) [(7%nat, 20)].

(** A list of the one entry 10. *)
Definition single_list : list_sentinal nat :=
  Sentinal (Some 1%positive) (Some 1%positive) 1 (Some 7%nat).

Definition single_mem : mem Z nat :=
  Mem (<[1%positive := Node NULL NULL 10]> ∅) [].

(** Entries above 15 *)
Definition big (v : Z) : bool := 15 <? v.

End Sample.

(** ** Basic facts *)

Section Facts.

Context {T fn : Type}.
Implicit Types (l : list_sentinal fn) (m : mem T fn).
Implicit Types (h : gmap addr (list_node T)) (xs : list (addr * T)).

Lemma foldr_max_ub (ys : list addr) a :
  a ∈ ys -> Z.pos a <= foldr (fun a acc => Z.max (Z.pos a) acc) 0 ys.
Proof.
  induction 1 as [a ys|a b ys _ IH]; simpl; lia.
Qed.

Lemma foldr_max_in (ys : list addr) :
  let t := foldr (fun a acc => Z.max (Z.pos a) acc) 0 ys in
  t = 0 \/ exists a, a ∈ ys /\ t = Z.pos a.
Proof.
  induction ys as [|b ys IH]; simpl; [by left|right].
  destruct IH as [IH|(a & Ha & IH)].
  - exists b. split; [left|]. lia.
  - destruct (Z.max_spec (Z.pos b) (foldr (fun a acc => Z.max (Z.pos a) acc) 0 ys))
      as [[_ E]|[_ E]]; rewrite E.
    + exists a. split; [by right|done].
    + exists b. split; [left|done].
Qed.

Lemma heap_top_ub h a n : h !! a = Some n -> Z.pos a <= heap_top h.
Proof.
  intros Ha. apply foldr_max_ub, elem_of_elements, elem_of_dom. eauto.
Qed.

Lemma heap_top_nonneg h : 0 <= heap_top h.
Proof.
  unfold heap_top.
  destruct (foldr_max_in (elements (dom h))) as [E|(a & _ & E)];
    simpl in E; rewrite E; lia.
Qed.

(** A bound on all allocated addresses bounds [heap_top]. *)
Lemma heap_top_le h z :
  0 <= z -> (forall a n, h !! a = Some n -> Z.pos a <= z) -> heap_top h <= z.
Proof.
  intros Hz Hall. unfold heap_top.
  destruct (foldr_max_in (elements (dom h))) as [E|(a & Ha & E)];
    simpl in E; rewrite E; [done|].
  apply elem_of_elements, elem_of_dom in Ha as [n Hn]. eauto.
Qed.

Lemma heap_top_fresh h : h !! Z.to_pos (heap_top h + 1) = None.
Proof.
  destruct (h !! _) as [n|] eqn:E; [|done].
  apply heap_top_ub in E. pose proof (heap_top_nonneg h). lia.
Qed.

Lemma heap_top_heap_ok h : heap_top h <= SIZE_MAX -> heap_ok h.
Proof. intros Hle a n Ha. apply heap_top_ub in Ha. lia. Qed.

(** Distinct addresses below a bound are no more than the bound. *)
Lemma NoDup_bounded (ys : list addr) (z : Z) :
  0 <= z -> NoDup ys -> (forall a, a ∈ ys -> Z.pos a <= z) ->
  Z.of_nat (llen ys) <= z.
Proof.
  intros Hz Hnd Hb.
  assert (llen (Pos.to_nat <$> ys) <= llen (seq 1 (Z.to_nat z)))%nat as Hlen.
  { apply submseteq_length, NoDup_submseteq.
    - apply NoDup_fmap_2; [intros ??; apply Pos2Nat.inj|done].
    - intros k [a [-> Ha]]%list_elem_of_fmap.
      apply elem_of_seq. specialize (Hb a Ha). lia. }
  rewrite length_fmap, length_seq in Hlen. lia.
Qed.

End Facts.

(** ** Running the primitives *)

Section Exec.
Context {T fn : Type}.
Implicit Types (l : list_sentinal fn) (m : mem T fn).
Implicit Types (h : gmap addr (list_node T)) (xs : list (addr * T)).

Lemma bind_eq {A B} (c : M T fn A) (k : A -> M T fn B) m a m' :
  c m = Ret (a, m') -> bind c k m = k a m'.
Proof. unfold bind. by intros ->. Qed.

Lemma insert_alter_eq h a n (f : list_node T -> list_node T) :
  h !! a = Some n -> <[a := f n]> h = alter f a h.
Proof.
  intros Ha. apply map_eq. intros b.
  rewrite lookup_alter, lookup_insert. case_decide; subst; by rewrite ?Ha.
Qed.

Lemma load_link_eq d a n m :
  nodes m !! a = Some n -> load_link d (Some a) m = Ret (get_link d n, m).
Proof. intros Ha. unfold load_link, bind, load. by rewrite Ha. Qed.

Lemma store_link_eq d a n q m :
  nodes m !! a = Some n ->
  store_link d (Some a) q m
  = Ret (tt, Mem (alter (set_link d q) a (nodes m)) (calls m)).
Proof.
  intros Ha. unfold store_link, bind, load, store. rewrite Ha. simpl.
  rewrite Ha. by erewrite insert_alter_eq.
Qed.

Lemma load_entry_eq a n m :
  nodes m !! a = Some n -> load_entry (Some a) m = Ret (entry n, m).
Proof. intros Ha. unfold load_entry, bind, load. by rewrite Ha. Qed.

Lemma free_eq a n m :
  nodes m !! a = Some n ->
  free (Some a) m = Ret (tt, Mem (delete a (nodes m)) (calls m)).
Proof. intros Ha. unfold free. by rewrite Ha. Qed.

Lemma lookup_patch_ne d q v h b : q <> Some b -> patch d q v h !! b = h !! b.
Proof.
  destruct q as [a|]; simpl; [|done]. intros Hne.
  apply lookup_alter_ne. congruence.
Qed.

Lemma lookup_patch_eq d v h b :
  patch d (Some b) v h !! b = set_link d v <$> h !! b.
Proof. simpl. apply lookup_alter_eq. Qed.

Lemma addr_inj xs i j a v w :
  NoDup xs.*1 -> xs !! i = Some (a, v) -> xs !! j = Some (a, w) -> i = j.
Proof.
  intros Hnd Hi Hj. eapply NoDup_lookup; [done| |].
  - rewrite list_lookup_fmap, Hi. done.
  - rewrite list_lookup_fmap, Hj. done.
Qed.

Lemma is_list_length_le l m xs : is_list l m xs -> Z.of_nat (llen xs) <= SIZE_MAX.
Proof.
  intros [Hnd Hl _ _ _ Hok].
  rewrite <- (length_fmap fst). apply NoDup_bounded; [done|done|].
  intros a [[a' v] [-> [i Hi]%list_elem_of_lookup]]%list_elem_of_fmap.
  eapply Hok, Hl, Hi.
Qed.

Lemma wrap_small z : 0 <= z <= SIZE_MAX -> wrap z = z.
Proof. intros Hz. unfold wrap. apply Z.mod_small. lia. Qed.


Lemma patch_is_Some d q v h b : is_Some (patch d q v h !! b) <-> is_Some (h !! b).
Proof. destruct q; simpl; [apply lookup_alter_is_Some|done]. Qed.

Lemma patch_heap_ok d q v h : heap_ok h -> heap_ok (patch d q v h).
Proof.
  intros Hok a n Ha.
  destruct (proj1 (patch_is_Some d q v h a)) as [n' Hn']; eauto.
Qed.

Lemma lookup_addr_ne xs j k b w :
  NoDup xs.*1 -> xs !! j = Some (b, w) -> k <> j -> fst <$> xs !! k <> Some b.
Proof.
  intros Hnd Hj Hne Hk.
  destruct (xs !! k) as [[b' w']|] eqn:E; simplify_eq/=.
  eauto using addr_inj.
Qed.

Lemma pred_addr_ne xs j i b w :
  NoDup xs.*1 -> xs !! j = Some (b, w) -> i <> S j ->
  fst <$> pred_at xs i <> Some b.
Proof.
  intros Hnd Hj Hne. destruct i as [|k]; simpl; [done|].
  eapply lookup_addr_ne; eauto.
Qed.

Lemma lookup_unlinked h xs i j b w :
  NoDup xs.*1 -> linked h xs -> xs !! j = Some (b, w) ->
  unlinked h xs i !! b
  = Some (Node (fst <$> xs !! (if decide (S j = i) then S i else S j))
               (fst <$> pred_at xs (if decide (j = S i) then i else j)) w).
Proof.
  intros Hnd Hl Hj. unfold unlinked. pose proof (Hl _ _ _ Hj) as Hb.
  destruct (decide (j = S i)) as [->|Hji].
  - rewrite Hj at 1. simpl fmap at 1. rewrite lookup_patch_eq.
    rewrite lookup_patch_ne by (eapply pred_addr_ne; eauto; lia).
    rewrite Hb. case_decide; [lia|done].
  - rewrite lookup_patch_ne by (eapply lookup_addr_ne; eauto).
    destruct (decide (S j = i)) as [<-|Hij].
    + simpl pred_at at 1. rewrite Hj at 1. simpl fmap at 1.
      rewrite lookup_patch_eq, Hb. done.
    + rewrite lookup_patch_ne by (eapply pred_addr_ne; eauto). done.
Qed.

Lemma pred_at_delete {A} (ys : list A) i j :
  pred_at (delete i ys) j = pred_at ys (if decide (j <= i)%nat then j else S j).
Proof.
  destruct j as [|k].
  - case_decide; [done|lia].
  - simpl. rewrite list_lookup_delete. repeat case_decide; try lia; done.
Qed.

Lemma linked_unlinked h xs i :
  NoDup xs.*1 -> linked h xs -> linked (unlinked h xs i) (delete i xs).
Proof.
  intros Hnd Hl j b w Hj. rewrite list_lookup_delete in Hj.
  erewrite lookup_unlinked by eauto.
  rewrite pred_at_delete, list_lookup_delete.
  repeat case_decide; try lia; repeat f_equal; lia.
Qed.


Lemma mem_eta m : Mem (nodes m) (calls m) = m.
Proof. by destruct m. Qed.

(** With a variable as argument every use of [elem] yields the same
    pointer, and the macros are the functions of that pointer. *)
Lemma LIST_REMOVE_local l (elem : ptr) :
  LIST_REMOVE (T := T) l (local elem)
  = (p <- load_link Fprev elem ;;
     (if p is Some _
      then p <- load_link Fprev elem ;;
           n <- load_link Fnext elem ;;
           store_link Fnext p n
      else ret tt) ;;
     n <- load_link Fnext elem ;;
     (if n is Some _
      then n <- load_link Fnext elem ;;
           p <- load_link Fprev elem ;;
           store_link Fprev n p
      else ret tt) ;;
     l1 <-
       (if decide (elem = head l)
        then q <- load_link Fnext (head l) ;; ret (set_boundary Fhead q l)
        else ret l) ;;
     l2 <-
       (if decide (elem = tail l1)
        then q <- load_link Fprev (tail l1) ;; ret (set_boundary Ftail q l1)
        else ret l1) ;;
     ret (length l2, set_length (wrap (length l2 - 1)) l2)).
Proof. reflexivity. Qed.

Lemma LIST_DEL_local l (elem : ptr) :
  LIST_DEL (T := T) l (local elem)
  = (r <- LIST_REMOVE l (local elem) ;;
     (if destructor r.2 is Some d
      then v <- load_entry elem ;; call d v
      else ret tt) ;;
     free elem ;;
     ret r.2).
Proof. reflexivity. Qed.

(** The statement [if (q) q->d = v;] where [q] and [v] are read from the
    fields [dq] and [dv] of [elem]. *)
Lemma patch_run (dq dv d : link) e ne m :
  nodes m !! e = Some ne ->
  (forall q, get_link dq ne = Some q -> is_Some (nodes m !! q)) ->
  (if get_link dq ne is Some _
   then bind (load_link dq (Some e)) (fun q =>
        bind (load_link dv (Some e)) (fun v => store_link d q v))
   else ret tt) m
  = Ret (tt, Mem (patch d (get_link dq ne) (get_link dv ne) (nodes m)) (calls m)).
Proof.
  intros He Hq. destruct (get_link dq ne) as [q|] eqn:Eq; simpl.
  - erewrite bind_eq by (by apply load_link_eq).
    erewrite bind_eq by (by apply load_link_eq).
    rewrite Eq. destruct (Hq q eq_refl) as [nq Hnq].
    by erewrite store_link_eq.
  - by rewrite mem_eta.
Qed.

Lemma LIST_REMOVE_run l m xs i e v :
  is_list l m xs -> xs !! i = Some (e, v) ->
  LIST_REMOVE l (local (Some e)) m
  = Ret ((length l, unlinked_sentinal l xs i e),
         Mem (unlinked (nodes m) xs i) (calls m)).
Proof.
  intros Hlist Hi. pose proof (is_list_length_le _ _ _ Hlist) as Hle.
  destruct Hlist as [Hnd Hl Hhd Htl Hlen Hok].
  pose proof (Hl _ _ _ Hi) as He.
  assert (patch Fnext (fst <$> pred_at xs i) (fst <$> xs !! S i) (nodes m) !! e
          = Some (Node (fst <$> xs !! S i) (fst <$> pred_at xs i) v)) as He1.
  { rewrite lookup_patch_ne; [done|]. eapply pred_addr_ne; eauto. }
  assert (unlinked (nodes m) xs i !! e
          = Some (Node (fst <$> xs !! S i) (fst <$> pred_at xs i) v)) as He2.
  { unfold unlinked. rewrite lookup_patch_ne; [done|].
    eapply lookup_addr_ne; eauto. }
  rewrite LIST_REMOVE_local.
  erewrite bind_eq by (by apply load_link_eq).
  erewrite bind_eq; cycle 1.
  { apply (patch_run Fprev Fnext Fnext e _ m He). simpl. intros p Hp.
    destruct i as [|k]; [done|].
    apply fmap_Some in Hp as ([p' vp] & Ek & ->).
    simpl. rewrite (Hl _ _ _ Ek). eauto. }
  erewrite bind_eq by (by apply load_link_eq).
  erewrite bind_eq; cycle 1.
  { apply (patch_run Fnext Fprev Fprev e _ (Mem _ _) He1). simpl. intros n Hn.
    apply fmap_Some in Hn as ([n' vn] & Ek & ->).
    apply patch_is_Some. simpl. rewrite (Hl _ _ _ Ek). eauto. }
  simpl get_link. fold (unlinked (nodes m) xs i).
  erewrite (bind_eq _ _ _
    (set_boundary Fhead
       (if decide (Some e = head l) then fst <$> xs !! S i else head l) l));
    cycle 1.
  { case_decide as Eh; [|by destruct l].
    rewrite <- Eh. erewrite bind_eq by (by apply load_link_eq). done. }
  erewrite (bind_eq _ _ _
    (set_boundary Ftail
       (if decide (Some e = tail l) then fst <$> pred_at xs i else tail l)
       (set_boundary Fhead
          (if decide (Some e = head l) then fst <$> xs !! S i else head l) l)));
    cycle 1.
  { simpl. case_decide as Et; [|done].
    rewrite <- Et. erewrite bind_eq by (by apply load_link_eq). done. }
  unfold ret, unlinked_sentinal, set_length. simpl.
  rewrite wrap_small; [done|].
  apply lookup_lt_Some in Hi. lia.
Qed.


Lemma unlinked_heap_ok h xs i : heap_ok h -> heap_ok (unlinked h xs i).
Proof. intros. by do 2 apply patch_heap_ok. Qed.

Lemma is_list_unlinked l m xs i e v c :
  is_list l m xs -> xs !! i = Some (e, v) ->
  is_list (unlinked_sentinal l xs i e)
          (Mem (unlinked (nodes m) xs i) c) (delete i xs).
Proof.
  intros [Hnd Hl Hhd Htl Hlen Hok] Hi.
  pose proof (lookup_lt_Some _ _ _ Hi) as Hlt.
  assert (llen (delete i xs) = (llen xs - 1)%nat) as Hlen'.
  { apply length_delete. eauto. }
  split; simpl.
  - rewrite list_fmap_delete. eapply sublist_NoDup; [done|apply sublist_delete].
  - by apply linked_unlinked.
  - rewrite list_lookup_delete. case_decide as Eh.
    + rewrite Hhd in Eh. symmetry in Eh.
      apply fmap_Some in Eh as ([e' v'] & E0 & ?); simplify_eq/=.
      assert (i = 0)%nat as -> by eauto using addr_inj.
      by rewrite decide_False by lia.
    + rewrite Hhd. destruct i as [|k]; [|by rewrite decide_True by lia].
      rewrite Hi in Hhd. simpl in Hhd. congruence.
  - rewrite Hlen', list_lookup_delete. case_decide as Et.
    + rewrite Htl in Et. symmetry in Et.
      apply fmap_Some in Et as ([e' v'] & E0 & ?); simplify_eq/=.
      assert (i = Nat.pred (llen xs)) as -> by eauto using addr_inj.
      destruct (llen xs) as [|[|n]] eqn:El; simpl in *; [lia| |].
      * rewrite (lookup_ge_None_2 xs 1) by lia. done.
      * case_decide; [done|lia].
    + destruct (decide (i = Nat.pred (llen xs))) as [->|Hne].
      * rewrite Hi in Htl. simpl in Htl. congruence.
      * rewrite Htl. case_decide; [lia|]. do 2 f_equal. lia.
  - rewrite Hlen, Hlen'. lia.
  - by apply unlinked_heap_ok.
Qed.

Lemma is_list_free l h c c' xs a :
  is_list l (Mem h c) xs -> a ∉ xs.*1 -> is_list l (Mem (delete a h) c') xs.
Proof.
  intros [Hnd Hl Hhd Htl Hlen Hok] Ha. split; simpl in *; try done.
  - intros i b w Hi. rewrite lookup_delete_ne; [by apply Hl|].
    intros ->. apply Ha, list_elem_of_fmap. exists (b, w).
    split; [done|]. eapply list_elem_of_lookup_2, Hi.
  - intros b n Hb. apply lookup_delete_Some in Hb as [_ Hb]. eauto.
Qed.

Lemma not_elem_of_delete_addr xs i e v :
  NoDup xs.*1 -> xs !! i = Some (e, v) -> e ∉ (delete i xs).*1.
Proof.
  intros Hnd Hi [[e' w] [? [j Hj]%list_elem_of_lookup]]%list_elem_of_fmap.
  simplify_eq/=. rewrite list_lookup_delete in Hj.
  assert (i = if decide (j < i)%nat then j else S j) by eauto using addr_inj.
  case_decide; lia.
Qed.

End Exec.

(** ** Insertion *)

Section Add.
Context {T fn : Type}.
Implicit Types (l : list_sentinal fn) (m : mem T fn).
Implicit Types (h : gmap addr (list_node T)) (xs : list (addr * T)).

Lemma malloc_inv m a :
  malloc m = Ret (Some a, m) ->
  nodes m !! a = None /\ Z.pos a <= SIZE_MAX.
Proof.
  unfold malloc. intros Hm. case_decide as Hle; simplify_eq.
  split; [apply heap_top_fresh|].
  pose proof (heap_top_nonneg (nodes m)). lia.
Qed.

Lemma LIST_ADD_run l m elem v top bottom direction reverse a :
  elem l m = Ret (v, m) ->
  malloc m = Ret (Some a, m) ->
  top <> bottom ->
  0 <= length l < SIZE_MAX ->
  (forall t, get_boundary top l = Some t -> is_Some (nodes m !! t)) ->
  _LIST_ADD l elem top bottom direction reverse m
  = Ret ((length l + 1, added_sentinal l top bottom a),
         Mem (added (nodes m) direction reverse (get_boundary top l) a v)
             (calls m)).
Proof.
  intros Hv Hm Htb Hlen Ht. destruct (malloc_inv _ _ Hm) as [Hfresh Ha].
  unfold _LIST_ADD. erewrite bind_eq by done.
  erewrite bind_eq by reflexivity. erewrite bind_eq by done.
  unfold init at 1, bind at 1.
  assert (get_boundary top
            (if get_boundary bottom l is None
             then set_boundary bottom (Some a) l else l)
          = get_boundary top l) as Etop.
  { destruct (get_boundary bottom l); [done|].
    by destruct top, bottom. }
  assert (wrap (length (set_boundary top (Some a)
            (if get_boundary bottom l is None
             then set_boundary bottom (Some a) l else l)) + 1) = length l + 1)
    as Hw.
  { rewrite wrap_small; destruct (get_boundary bottom l), top, bottom;
      simpl; lia. }
  rewrite Etop. unfold added, added_sentinal.
  destruct (get_boundary top l) as [t|] eqn:Et.
  - destruct (Ht t eq_refl) as [nt Hnt].
    assert (t <> a) as Hne by congruence.
    erewrite bind_eq; cycle 1.
    { erewrite bind_eq; cycle 1.
      { apply store_link_eq with (n := nt). simpl.
        by rewrite lookup_insert_ne. }
      erewrite bind_eq; cycle 1.
      { eapply store_link_eq. simpl. rewrite lookup_alter_ne by done.
        apply lookup_insert_eq. }
      reflexivity. }
    unfold ret. simpl. rewrite Hw by done.
    do 3 f_equal. apply map_eq. intros b.
    destruct (decide (b = a)) as [->|Hba].
    + rewrite lookup_alter_eq, lookup_alter_ne, !lookup_insert_eq by done.
      done.
    + rewrite lookup_alter_ne, lookup_insert_ne by done.
      rewrite !lookup_alter.
      case_decide; subst; by rewrite lookup_insert_ne.
  - unfold ret, bind. simpl. rewrite Hw by done.
    do 4 f_equal. by destruct reverse.
Qed.


Lemma linked_allocated h xs a :
  linked h xs -> a ∈ xs.*1 -> is_Some (h !! a).
Proof.
  intros Hl [[a' v] [-> [i Hi]%list_elem_of_lookup]]%list_elem_of_fmap.
  simpl. rewrite (Hl _ _ _ Hi). eauto.
Qed.

Lemma added_heap_ok h d r t a v :
  heap_ok h -> Z.pos a <= SIZE_MAX -> heap_ok (added h d r t a v).
Proof.
  intros Hok Ha b n. unfold added. rewrite lookup_insert.
  case_decide; subst; [done|]. intros Hb.
  destruct (proj1 (patch_is_Some d t (Some a) h b)) as [n' Hn']; eauto.
Qed.

Lemma is_list_appended l m xs a v c :
  is_list l m xs -> nodes m !! a = None -> Z.pos a <= SIZE_MAX ->
  is_list (added_sentinal l Ftail Fhead a)
          (Mem (added (nodes m) Fnext Fprev (tail l) a v) c)
          (xs ++ [(a, v)]).
Proof.
  intros [Hnd Hl Hhd Htl Hlen Hok] Hfresh Ha.
  assert (a ∉ xs.*1) as Hnotin.
  { intros [n Hn]%(linked_allocated _ _ _ Hl). congruence. }
  split; simpl.
  - rewrite fmap_app. apply NoDup_app. split; [done|]. split.
    + intros b Hb [->|[]%elem_of_nil]%elem_of_cons. done.
    + apply NoDup_singleton.
  - intros j b w Hj. unfold added.
    apply lookup_app_Some in Hj as [Hj|[Hge Hj]].
    + pose proof (lookup_lt_Some _ _ _ Hj) as Hlt.
      assert (b <> a) as Hba.
      { intros ->. apply Hnotin, list_elem_of_fmap. exists (a, w).
        split; [done|]. eapply list_elem_of_lookup_2, Hj. }
      rewrite lookup_insert_ne by done.
      assert (pred_at (xs ++ [(a, v)]) j = pred_at xs j) as ->.
      { destruct j as [|k]; [done|]. simpl. apply lookup_app_l. lia. }
      destruct (decide (S j = llen xs)) as [Elast|Hnl].
      * assert (tail l = Some b) as ->.
        { rewrite Htl. replace (Nat.pred (llen xs)) with j by lia.
          by rewrite Hj. }
        rewrite lookup_patch_eq, (Hl _ _ _ Hj). simpl.
        rewrite Elast, lookup_app_r, Nat.sub_diag by lia. done.
      * rewrite lookup_patch_ne, (Hl _ _ _ Hj).
        -- rewrite lookup_app_l by lia. done.
        -- rewrite Htl. eapply lookup_addr_ne; eauto. lia.
    + destruct (j - llen xs)%nat as [|k] eqn:Ek; simplify_eq/=.
      assert (j = llen xs) as -> by lia.
      rewrite lookup_insert_eq. f_equal.
      rewrite lookup_app_r, Htl by lia.
      replace (S (llen xs) - llen xs)%nat with 1%nat by lia. simpl.
      f_equal. destruct (llen xs) as [|n] eqn:El; simpl.
      * apply nil_length_inv in El as ->. done.
      * rewrite lookup_app_l by lia. done.
  - rewrite Hhd. destruct xs as [|[b w] xs]; done.
  - rewrite length_app, Nat.add_1_r. simpl.
    rewrite lookup_app_r, Nat.sub_diag by lia. done.
  - rewrite length_app, Hlen. simpl. lia.
  - by apply added_heap_ok.
Qed.

Lemma is_list_prepended l m xs a v c :
  is_list l m xs -> nodes m !! a = None -> Z.pos a <= SIZE_MAX ->
  is_list (added_sentinal l Fhead Ftail a)
          (Mem (added (nodes m) Fprev Fnext (head l) a v) c)
          ((a, v) :: xs).
Proof.
  intros [Hnd Hl Hhd Htl Hlen Hok] Hfresh Ha.
  assert (a ∉ xs.*1) as Hnotin.
  { intros [n Hn]%(linked_allocated _ _ _ Hl). congruence. }
  split; simpl.
  - by apply NoDup_cons.
  - intros [|j] b w Hj; unfold added; simplify_eq/=.
    + rewrite lookup_insert_eq, Hhd. done.
    + assert (b <> a) as Hba.
      { intros ->. apply Hnotin, list_elem_of_fmap. exists (a, w).
        split; [done|]. eapply list_elem_of_lookup_2, Hj. }
      rewrite lookup_insert_ne by done.
      destruct j as [|k].
      * assert (head l = Some b) as -> by (by rewrite Hhd, Hj).
        rewrite lookup_patch_eq, (Hl _ _ _ Hj). done.
      * rewrite lookup_patch_ne, (Hl _ _ _ Hj); [done|].
        rewrite Hhd. eapply lookup_addr_ne; eauto.
  - done.
  - destruct xs as [|[b w] xs].
    + by rewrite Htl.
    + simpl in Htl. destruct (tail l) as [t|] eqn:Et.
      * simpl. by rewrite Et, Htl.
      * destruct (lookup_lt_is_Some_2 ((b, w) :: xs) (llen xs)) as [? E];
          [simpl; lia|].
        by rewrite E in Htl.
  - rewrite Hlen. lia.
  - by apply added_heap_ok.
Qed.

End Add.

(** ** Deletion and pop *)

Section Removal.
Context {T fn : Type}.
Implicit Types (l : list_sentinal fn) (m : mem T fn).
Implicit Types (h : gmap addr (list_node T)) (xs : list (addr * T)).

Lemma lookup_unlinked_self h xs i e v :
  NoDup xs.*1 -> linked h xs -> xs !! i = Some (e, v) ->
  unlinked h xs i !! e
  = Some (Node (fst <$> xs !! S i) (fst <$> pred_at xs i) v).
Proof.
  intros Hnd Hl Hi. erewrite lookup_unlinked by eauto.
  repeat case_decide; try lia; done.
Qed.

Lemma lookup_unlinked_other h xs i b :
  b ∉ xs.*1 -> unlinked h xs i !! b = h !! b.
Proof.
  intros Hb. unfold unlinked.
  assert (forall k, fst <$> xs !! k <> Some b) as Hk.
  { intros k [[b' w] [E ?]]%fmap_Some. simplify_eq/=.
    apply Hb, list_elem_of_fmap. exists (b', w). split; [done|].
    eapply list_elem_of_lookup_2, E. }
  rewrite !lookup_patch_ne; [done| |by apply Hk].
  destruct i; [done|apply Hk].
Qed.

Lemma LIST_DEL_run l m xs i e v :
  is_list l m xs -> xs !! i = Some (e, v) ->
  LIST_DEL l (local (Some e)) m
  = Ret (unlinked_sentinal l xs i e,
         Mem (delete e (unlinked (nodes m) xs i))
             (calls m ++ destructor_calls (destructor l) [v])).
Proof.
  intros Hlist Hi. rewrite LIST_DEL_local.
  erewrite bind_eq by (by eapply LIST_REMOVE_run).
  destruct Hlist as [Hnd Hl _ _ _ _].
  pose proof (lookup_unlinked_self _ _ _ _ _ Hnd Hl Hi) as He.
  simpl. destruct (destructor l) as [d|]; simpl.
  - erewrite bind_eq; cycle 1.
    { erewrite bind_eq by (by apply load_entry_eq). reflexivity. }
    erewrite bind_eq by (by eapply free_eq). done.
  - unfold ret at 1, bind at 1.
    erewrite bind_eq by (by eapply free_eq). by rewrite app_nil_r.
Qed.

Lemma LIST_POP_run l m xs s i e v :
  is_list l m xs -> xs !! i = Some (e, v) -> get_boundary s l = Some e ->
  _LIST_POP l s m
  = Ret ((v, unlinked_sentinal l xs i e),
         Mem (delete e (unlinked (nodes m) xs i)) (calls m)).
Proof.
  intros Hlist Hi Hs. unfold _LIST_POP. rewrite Hs.
  erewrite bind_eq by (by eapply LIST_REMOVE_run).
  destruct Hlist as [Hnd Hl _ _ _ _].
  pose proof (lookup_unlinked_self _ _ _ _ _ Hnd Hl Hi) as He.
  erewrite bind_eq by (by apply load_entry_eq).
  erewrite bind_eq by (by eapply free_eq). done.
Qed.

Lemma is_list_deleted l m xs i e v c :
  is_list l m xs -> xs !! i = Some (e, v) ->
  is_list (unlinked_sentinal l xs i e)
          (Mem (delete e (unlinked (nodes m) xs i)) c) (delete i xs).
Proof.
  intros Hlist Hi. eapply is_list_free.
  - by eapply (is_list_unlinked _ _ _ _ _ _ c).
  - eapply not_elem_of_delete_addr; [apply Hlist|done].
Qed.

End Removal.

(** ** Traversal *)

Section Traversal.
Context {T fn : Type}.
Implicit Types (l : list_sentinal fn) (m : mem T fn).
Implicit Types (h : gmap addr (list_node T)) (xs : list (addr * T)).

Lemma for_each_forward {B} xs m (g : addr * T -> B) callback fuel k acc :
  linked (nodes m) xs -> records xs m g callback ->
  (llen xs - k <= fuel)%nat ->
  for_each_loop fuel Fnext callback (fst <$> xs !! k) acc m
  = Ret (acc ++ (g <$> drop k xs), m).
Proof.
  intros Hl Hcb. revert k acc.
  induction fuel as [|fuel IH]; intros k acc Hfuel;
    destruct (xs !! k) as [[a v]|] eqn:Ek; simpl.
  - apply lookup_lt_Some in Ek. lia.
  - rewrite drop_ge by (by apply lookup_ge_None). by rewrite app_nil_r.
  - erewrite bind_eq by (by eapply Hcb).
    erewrite bind_eq by (by eapply load_link_eq, Hl).
    simpl. rewrite IH by lia.
    by rewrite (drop_S _ _ _ Ek), fmap_cons, <- app_assoc.
  - rewrite drop_ge by (by apply lookup_ge_None). by rewrite app_nil_r.
Qed.

Lemma for_each_backward {B} xs m (g : addr * T -> B) callback fuel k acc :
  linked (nodes m) xs -> records xs m g callback ->
  (k <= fuel)%nat -> (k <= llen xs)%nat ->
  for_each_loop fuel Fprev callback (fst <$> pred_at xs k) acc m
  = Ret (acc ++ (g <$> reverse (take k xs)), m).
Proof.
  intros Hl Hcb. revert k acc.
  induction fuel as [|fuel IH]; intros [|k] acc Hfuel Hk; simpl;
    try (by rewrite app_nil_r); try lia.
  destruct (lookup_lt_is_Some_2 xs k) as [[a v] Ek]; [lia|].
  rewrite Ek. simpl.
  erewrite bind_eq by (by eapply Hcb).
  erewrite bind_eq by (by eapply load_link_eq, Hl).
  simpl. rewrite IH by lia.
  rewrite (take_S_r _ _ _ Ek), reverse_snoc, fmap_cons, <- app_assoc. done.
Qed.

Lemma LIST_FOR_EACH_run {B} l m xs (g : addr * T -> B) callback fuel :
  is_list l m xs -> records xs m g callback -> (llen xs <= fuel)%nat ->
  LIST_FOR_EACH fuel l callback [] m = Ret (g <$> xs, m).
Proof.
  intros [_ Hl Hhd _ _ _] Hcb Hfuel.
  unfold LIST_FOR_EACH, _LIST_FOR_EACH. simpl. rewrite Hhd.
  erewrite for_each_forward by (done || lia). done.
Qed.

Lemma LIST_FOR_EACH_REV_run {B} l m xs (g : addr * T -> B) callback fuel :
  is_list l m xs -> records xs m g callback -> (llen xs <= fuel)%nat ->
  LIST_FOR_EACH_REV fuel l callback [] m = Ret (g <$> reverse xs, m).
Proof.
  intros [_ Hl _ Htl _ _] Hcb Hfuel.
  unfold LIST_FOR_EACH_REV, _LIST_FOR_EACH. simpl. rewrite Htl.
  replace (xs !! Nat.pred (llen xs)) with (pred_at xs (llen xs)).
  - erewrite for_each_backward by (done || lia). by rewrite take_ge.
  - destruct (llen xs) eqn:E; [|done].
    by apply nil_length_inv in E as ->.
Qed.

End Traversal.

(** ** Bulk destruction *)

Section Destroy.
Context {T fn : Type}.
Implicit Types (l : list_sentinal fn) (m : mem T fn).
Implicit Types (h : gmap addr (list_node T)) (xs : list (addr * T)).

Lemma is_list_nil_inv l m :
  is_list l m [] -> head l = None /\ tail l = None /\ length l = 0.
Proof. by intros [_ _ ? ? ? _]. Qed.

Lemma destructor_calls_cons (d : option fn) (v : T) vs :
  destructor_calls d (v :: vs) = destructor_calls d [v] ++ destructor_calls d vs.
Proof. by destruct d. Qed.

Lemma destroy_loop xs l m fuel :
  is_list l m xs -> (llen xs <= fuel)%nat ->
  exists l' m',
    for_each_safe_loop fuel Fnext delete_each
      (fst <$> xs !! 0%nat) (fst <$> xs !! 1%nat) l m = Ret (l', m')
    /\ destroyed l m xs l' m'.
Proof.
  revert l m fuel. induction xs as [|[a v] xs IH]; intros l m fuel Hlist Hfuel.
  - exists l, m. split; [by destruct fuel|].
    destruct (is_list_nil_inv _ _ Hlist) as (? & ? & ?).
    split; try done.
    + destruct (destructor l); simpl; by rewrite app_nil_r.
    + intros a []%elem_of_nil.
    + apply Hlist.
  - destruct fuel as [|fuel]; [simpl in Hfuel; lia|].
    pose proof (is_list_deleted l m _ 0 a v
      (calls m ++ destructor_calls (destructor l) [v]) Hlist eq_refl) as Hlist'.
    simpl delete in Hlist'.
    destruct (IH _ _ fuel Hlist') as (l' & m' & Hrun & Hd);
      [simpl in Hfuel; lia|].
    exists l', m'. split.
    + simpl for_each_safe_loop.
      erewrite bind_eq by (by eapply (LIST_DEL_run _ _ _ 0%nat)).
      erewrite bind_eq; [exact Hrun|].
      destruct xs as [|[b w] xs]; [done|]. simpl.
      erewrite load_link_eq; cycle 1.
      { by apply (il_linked _ _ _ Hlist' 0%nat b w). }
      done.
    + destruct Hd as [? ? ? Hdes Hcalls Hfreed Hothers ?].
      split; try done.
      * rewrite Hcalls, fmap_cons. cbn [calls destructor unlinked_sentinal snd].
        rewrite (destructor_calls_cons _ v xs.*2), app_assoc. done.
      * intros b [->|Hb]%elem_of_cons; [|by apply Hfreed].
        destruct (decide (a ∈ xs.*1)) as [Hin|Hnin]; [by apply Hfreed|].
        rewrite Hothers by done. simpl. apply lookup_delete_eq.
      * intros b Hb. apply not_elem_of_cons in Hb as [Hba Hb].
        rewrite Hothers by done. simpl. rewrite lookup_delete_ne by done.
        apply lookup_unlinked_other. simpl. by apply not_elem_of_cons.
Qed.

Lemma LIST_DESTROY_run l m xs fuel :
  is_list l m xs -> (llen xs <= fuel)%nat ->
  exists l' m', LIST_DESTROY fuel l m = Ret (l', m') /\ destroyed l m xs l' m'.
Proof.
  intros Hlist Hfuel.
  destruct (destroy_loop _ _ _ _ Hlist Hfuel) as (l' & m' & Hrun & Hd).
  exists l', m'. split; [|done].
  unfold LIST_DESTROY, LIST_FOR_EACH_SAFE, _LIST_FOR_EACH_SAFE. simpl.
  rewrite (il_head _ _ _ Hlist).
  erewrite bind_eq; [exact Hrun|].
  destruct xs as [|[a v] xs]; [done|]. simpl.
  erewrite load_link_eq; cycle 1.
  { by apply (il_linked _ _ _ Hlist 0%nat a v). }
  done.
Qed.

End Destroy.

(** ** Construction *)

Section Construction.
Context {T fn : Type}.
Implicit Types (l : list_sentinal fn) (m : mem T fn).
Implicit Types (h : gmap addr (list_node T)) (xs : list (addr * T)).

Lemma is_list_empty (d : option fn) m :
  heap_ok (nodes m) -> is_list (Sentinal NULL NULL 0 d) m [].
Proof. intros Hok. split; try done. apply NoDup_nil_2. Qed.

Lemma malloc_room m :
  heap_top (nodes m) < SIZE_MAX ->
  malloc m = Ret (Some (Z.to_pos (heap_top (nodes m) + 1)), m).
Proof. intros Hlt. unfold malloc. by rewrite decide_True by lia. Qed.

(** A list leaves room in its length for every node still allocatable. *)
Lemma is_list_length_lt l m xs a :
  is_list l m xs -> malloc m = Ret (Some a, m) -> 0 <= length l < SIZE_MAX.
Proof.
  intros Hlist [Hfresh Ha]%malloc_inv.
  rewrite (il_length _ _ _ Hlist). split; [lia|].
  destruct Hlist as [Hnd Hl _ _ _ Hok].
  assert (a ∉ xs.*1) as Hnotin.
  { intros [n Hn]%(linked_allocated _ _ _ Hl). congruence. }
  pose proof (NoDup_bounded (a :: xs.*1) SIZE_MAX) as Hb.
  simpl in Hb. rewrite length_fmap in Hb.
  assert (Z.of_nat (S (llen xs)) <= SIZE_MAX); [|lia].
  apply Hb; [done|by apply NoDup_cons|].
  intros b [->|Hb']%elem_of_cons; [done|].
  destruct (linked_allocated _ _ _ Hl Hb') as [n Hn]. eauto.
Qed.

(** An append whose argument evaluates to [v] without changing the
    memory. *)
Lemma LIST_APPEND_expr l m xs (elem : expr T fn T) v a :
  is_list l m xs -> malloc m = Ret (Some a, m) ->
  elem l m = Ret (v, m) ->
  LIST_APPEND l elem m
  = Ret ((length l + 1, added_sentinal l Ftail Fhead a),
         Mem (added (nodes m) Fnext Fprev (tail l) a v) (calls m)).
Proof.
  intros Hlist Hm Hv.
  apply (LIST_ADD_run l m elem v Ftail Fhead Fnext Fprev a);
    [done|done|done| |].
  - by eapply is_list_length_lt.
  - simpl. intros t Ht. rewrite (il_tail _ _ _ Hlist) in Ht.
    apply fmap_Some in Ht as ([t' w] & Ek & ->). simpl.
    rewrite (il_linked _ _ _ Hlist _ _ _ Ek). eauto.
Qed.

Lemma LIST_APPEND_run l m xs v a :
  is_list l m xs -> malloc m = Ret (Some a, m) ->
  LIST_APPEND l (local v) m
  = Ret ((length l + 1, added_sentinal l Ftail Fhead a),
         Mem (added (nodes m) Fnext Fprev (tail l) a v) (calls m)).
Proof. intros Hlist Hm. by eapply LIST_APPEND_expr. Qed.

(** The argument [initializer[i]] of the constructor's append. *)
Lemma read_array_eq (initializer : list T) (i : nat) v m :
  initializer !! i = Some v ->
  read_array (fn := fn) initializer (Z.of_nat i) m = Ret (v, m).
Proof. intros Hv. unfold read_array. by rewrite Nat2Z.id, Hv. Qed.

Lemma LIST_PREPEND_expr l m xs (elem : expr T fn T) v a :
  is_list l m xs -> malloc m = Ret (Some a, m) ->
  elem l m = Ret (v, m) ->
  LIST_PREPEND l elem m
  = Ret ((length l + 1, added_sentinal l Fhead Ftail a),
         Mem (added (nodes m) Fprev Fnext (head l) a v) (calls m)).
Proof.
  intros Hlist Hm Hv.
  apply (LIST_ADD_run l m elem v Fhead Ftail Fprev Fnext a);
    [done|done|done| |].
  - by eapply is_list_length_lt.
  - simpl. intros t Ht. rewrite (il_head _ _ _ Hlist) in Ht.
    apply fmap_Some in Ht as ([t' w] & Ek & ->). simpl.
    rewrite (il_linked _ _ _ Hlist _ _ _ Ek). eauto.
Qed.

Lemma LIST_PREPEND_run l m xs v a :
  is_list l m xs -> malloc m = Ret (Some a, m) ->
  LIST_PREPEND l (local v) m
  = Ret ((length l + 1, added_sentinal l Fhead Ftail a),
         Mem (added (nodes m) Fprev Fnext (head l) a v) (calls m)).
Proof. intros Hlist Hm. by eapply LIST_PREPEND_expr. Qed.

Lemma heap_top_added h d r t a v :
  heap_top (added h d r t a v) <= Z.max (heap_top h) (Z.pos a).
Proof.
  apply heap_top_le; [lia|]. intros b n. unfold added.
  rewrite lookup_insert. case_decide; subst; [lia|]. intros Hb.
  destruct (proj1 (patch_is_Some d t (Some a) h b)) as [n' Hn']; [eauto|].
  apply heap_top_ub in Hn'. lia.
Qed.

Lemma destructor_added_sentinal l top bottom a :
  destructor (added_sentinal l top bottom a) = destructor l.
Proof.
  unfold added_sentinal. destruct top, bottom; simpl;
    by destruct (head l), (tail l).
Qed.

(** The constructor's loop appends the next [k] entries of the array. *)
Lemma new_list_loop_run (initializer : list T) k :
  forall (i : nat) l m xs,
  is_list l m xs ->
  (i + k <= llen initializer)%nat ->
  heap_top (nodes m) + Z.of_nat k <= SIZE_MAX ->
  exists l' m' ys,
    new_list_loop initializer k (Z.of_nat i) l m = Ret (l', m')
    /\ is_list l' m' (xs ++ ys)
    /\ ys.*2 = take k (drop i initializer)
    /\ destructor l' = destructor l
    /\ calls m' = calls m.
Proof.
  induction k as [|k IH]; intros i l m xs Hlist Hik Hroom.
  - exists l, m, []. rewrite app_nil_r. by destruct m.
  - destruct (lookup_lt_is_Some_2 initializer i) as [v Hv]; [lia|].
    set (a := Z.to_pos (heap_top (nodes m) + 1)).
    assert (malloc m = Ret (Some a, m)) as Hm by (apply malloc_room; lia).
    destruct (malloc_inv _ _ Hm) as [Hfresh Ha].
    pose proof (is_list_appended _ _ _ a v (calls m) Hlist Hfresh Ha) as Hlist'.
    destruct (IH (S i) _ _ _ Hlist') as (l' & m' & ys & Hrun & Hl' & Hys & Hd & Hc).
    { lia. }
    { simpl. pose proof (heap_top_added (nodes m) Fnext Fprev (tail l) a v).
      pose proof (heap_top_nonneg (nodes m)). lia. }
    exists l', m', ((a, v) :: ys). split; [|split; [|split; [|split]]].
    + simpl.
      erewrite bind_eq
        by (eapply LIST_APPEND_expr; [done|done|by apply read_array_eq]).
      replace (Z.of_nat i + 1) with (Z.of_nat (S i)) by lia. exact Hrun.
    + by rewrite <- app_assoc in Hl'.
    + by rewrite fmap_cons, Hys, (drop_S _ _ _ Hv).
    + rewrite Hd. apply destructor_added_sentinal.
    + by rewrite Hc.
Qed.

End Construction.

(** ** Reachable states *)

Section Reachability.
Context {T fn : Type}.
Implicit Types (l : list_sentinal fn) (m : mem T fn).
Implicit Types (h : gmap addr (list_node T)) (xs : list (addr * T)).

Lemma LIST_ADD_inv l m v top bottom direction reverse x :
  _LIST_ADD l v top bottom direction reverse m = Ret x ->
  exists a, malloc m = Ret (Some a, m).
Proof.
  unfold _LIST_ADD, bind at 1, malloc. case_decide; [eauto|].
  unfold bind, null_links. done.
Qed.

Lemma new_list_loop_inv (initializer : list T) k :
  forall i l m xs l' m',
  is_list l m xs ->
  new_list_loop initializer k i l m = Ret (l', m') ->
  exists xs', is_list l' m' xs'.
Proof.
  induction k as [|k IH]; intros i l m xs l' m' Hlist Hrun.
  - injection Hrun as <- <-. eauto.
  - simpl in Hrun. unfold bind at 1 in Hrun.
    destruct (LIST_APPEND l _ m) as [[r m1]| |] eqn:Eapp; try done.
    destruct (LIST_ADD_inv _ _ _ _ _ _ _ _ Eapp) as [a Hm].
    destruct (initializer !! Z.to_nat i) as [v|] eqn:Ev; cycle 1.
    { unfold LIST_APPEND, _LIST_ADD in Eapp.
      erewrite bind_eq in Eapp by done.
      erewrite bind_eq in Eapp by reflexivity.
      unfold bind at 1, read_array in Eapp. by rewrite Ev in Eapp. }
    erewrite LIST_APPEND_expr in Eapp;
      [|done|done|unfold read_array; by rewrite Ev].
    injection Eapp as <- <-.
    destruct (malloc_inv _ _ Hm) as [Hfresh Ha].
    eapply IH; [|exact Hrun]. by apply is_list_appended.
Qed.

Lemma linked_from_lookup h xs k e :
  linked h xs -> linked_from h (fst <$> xs !! k) e ->
  exists i v, xs !! i = Some (e, v).
Proof.
  intros Hl Hfrom. remember (fst <$> xs !! k) as p eqn:Ep.
  revert k Ep. induction Hfrom as [a n Ha|a n e Ha _ IH]; intros k Ep.
  - symmetry in Ep. apply fmap_Some in Ep as ([a' v] & Ek & ->). eauto.
  - symmetry in Ep. apply fmap_Some in Ep as ([a' v] & Ek & ->).
    simpl in Ha. rewrite (Hl _ _ _ Ek) in Ha. injection Ha as <-.
    by apply (IH (S k)).
Qed.

Lemma destroy_loop_fuel xs l m fuel :
  is_list l m xs -> (fuel < llen xs)%nat ->
  for_each_safe_loop fuel Fnext delete_each
    (fst <$> xs !! 0%nat) (fst <$> xs !! 1%nat) l m = OutOfFuel.
Proof.
  revert l m fuel. induction xs as [|[a v] xs IH]; intros l m fuel Hlist Hfuel.
  - simpl in Hfuel. lia.
  - destruct fuel as [|fuel]; [done|].
    pose proof (is_list_deleted l m _ 0 a v
      (calls m ++ destructor_calls (destructor l) [v]) Hlist eq_refl) as Hlist'.
    simpl delete in Hlist'.
    simpl for_each_safe_loop.
    erewrite bind_eq by (by eapply (LIST_DEL_run _ _ _ 0%nat)).
    erewrite bind_eq; [apply (IH _ _ fuel Hlist'); simpl in Hfuel; lia|].
    destruct xs as [|[b w] xs]; [done|]. simpl.
    erewrite load_link_eq; cycle 1.
    { by apply (il_linked _ _ _ Hlist' 0%nat b w). }
    done.
Qed.

Lemma LIST_DESTROY_inv l m xs fuel l' m' :
  is_list l m xs -> LIST_DESTROY fuel l m = Ret (l', m') ->
  destroyed l m xs l' m'.
Proof.
  intros Hlist Hrun. destruct (decide (llen xs <= fuel)%nat) as [Hle|Hgt].
  - destruct (LIST_DESTROY_run _ _ _ _ Hlist Hle) as (l1 & m1 & Hrun' & Hd).
    congruence.
  - exfalso. revert Hrun.
    unfold LIST_DESTROY, LIST_FOR_EACH_SAFE, _LIST_FOR_EACH_SAFE. simpl.
    rewrite (il_head _ _ _ Hlist).
    erewrite bind_eq; [rewrite (destroy_loop_fuel xs) by (done || lia); done|].
    destruct xs as [|[a v] xs]; [done|]. simpl.
    erewrite load_link_eq; cycle 1.
    { by apply (il_linked _ _ _ Hlist 0%nat a v). }
    done.
Qed.

Lemma destroyed_is_list l m xs l' m' :
  destroyed l m xs l' m' -> is_list l' m' [].
Proof.
  intros [? ? ? _ _ _ _ ?]. split; try done. apply NoDup_nil_2.
Qed.

Lemma LIST_POP_inv l m xs s x :
  is_list l m xs -> _LIST_POP l s m = Ret x ->
  exists i e v, xs !! i = Some (e, v) /\ get_boundary s l = Some e.
Proof.
  intros Hlist Hrun.
  destruct (get_boundary s l) as [e|] eqn:Es.
  - assert (exists i, fst <$> xs !! i = Some e) as [i Hi].
    { destruct s; simpl in Es.
      + exists 0%nat. by rewrite <- (il_head _ _ _ Hlist).
      + exists (Nat.pred (llen xs)). by rewrite <- (il_tail _ _ _ Hlist). }
    apply fmap_Some in Hi as ([e' v] & Hi & ->). eauto.
  - unfold _LIST_POP in Hrun. rewrite Es in Hrun. done.
Qed.

(** Every reachable state is a well-formed list. *)
Lemma reachable_is_list l m : reachable l m -> exists xs, is_list l m xs.
Proof.
  induction 1 as
    [m0 init len d l m Hok Hrun
    |l m v r l' m' _ [xs Hlist] Hrun
    |l m v r l' m' _ [xs Hlist] Hrun
    |l m e r l' m' _ [xs Hlist] Hmem Hrun
    |l m e l' m' _ [xs Hlist] Hmem Hrun
    |l m v l' m' _ [xs Hlist] Hrun
    |l m v l' m' _ [xs Hlist] Hrun
    |l m fuel l' m' _ [xs Hlist] Hrun].
  - destruct init as [arr|]; simpl in Hrun.
    + eapply new_list_loop_inv; [|exact Hrun]. by apply is_list_empty.
    + injection Hrun as <- <-. eexists. by apply is_list_empty.
  - destruct (LIST_ADD_inv _ _ _ _ _ _ _ _ Hrun) as [a Hm].
    rewrite (LIST_APPEND_run _ _ _ _ _ Hlist Hm) in Hrun.
    injection Hrun as _ <- <-. destruct (malloc_inv _ _ Hm).
    eexists. by apply is_list_appended.
  - destruct (LIST_ADD_inv _ _ _ _ _ _ _ _ Hrun) as [a Hm].
    rewrite (LIST_PREPEND_run _ _ _ _ _ Hlist Hm) in Hrun.
    injection Hrun as _ <- <-. destruct (malloc_inv _ _ Hm).
    eexists. by apply is_list_prepended.
  - rewrite (il_head _ _ _ Hlist) in Hmem.
    destruct (linked_from_lookup _ _ _ _ (il_linked _ _ _ Hlist) Hmem)
      as (i & v & Hi).
    rewrite (LIST_REMOVE_run _ _ _ _ _ _ Hlist Hi) in Hrun.
    injection Hrun as _ <- <-. eexists. by eapply is_list_unlinked.
  - rewrite (il_head _ _ _ Hlist) in Hmem.
    destruct (linked_from_lookup _ _ _ _ (il_linked _ _ _ Hlist) Hmem)
      as (i & v & Hi).
    rewrite (LIST_DEL_run _ _ _ _ _ _ Hlist Hi) in Hrun.
    injection Hrun as <- <-. eexists. by eapply is_list_deleted.
  - destruct (LIST_POP_inv _ _ _ _ _ Hlist Hrun) as (i & e & w & Hi & Hs).
    unfold LIST_POPF in Hrun.
    rewrite (LIST_POP_run _ _ _ _ _ _ _ Hlist Hi Hs) in Hrun.
    injection Hrun as _ <- <-. eexists. by eapply is_list_deleted.
  - destruct (LIST_POP_inv _ _ _ _ _ Hlist Hrun) as (i & e & w & Hi & Hs).
    unfold LIST_POPB in Hrun.
    rewrite (LIST_POP_run _ _ _ _ _ _ _ Hlist Hi Hs) in Hrun.
    injection Hrun as _ <- <-. eexists. by eapply is_list_deleted.
  - eexists. eapply destroyed_is_list, LIST_DESTROY_inv; eauto.
Qed.

End Reachability.

(** ** The specification *)

Section Specification.
Context {T fn : Type}.
Implicit Types (l : list_sentinal fn) (m : mem T fn).
Implicit Types (h : gmap addr (list_node T)) (xs : list (addr * T)).

Lemma records_collect xs m : linked (nodes m) xs -> records xs m snd collect.
Proof.
  intros Hl j a v acc Hj. unfold collect.
  erewrite bind_eq by (by eapply load_entry_eq, Hl). done.
Qed.

Lemma records_visit xs m : records xs m (fun x => Some x.1) visit.
Proof. by intros j a v acc Hj. Qed.

Lemma is_list_empty_iff l m xs :
  is_list l m xs ->
  (head l = None <-> xs = []) /\ (tail l = None <-> xs = [])
  /\ (length l = 0 <-> xs = []).
Proof.
  intros [_ _ Hhd Htl Hlen _]. rewrite Hhd, Htl, Hlen.
  destruct xs as [|[a v] xs]; [done|].
  destruct (lookup_lt_is_Some_2 ((a, v) :: xs) (llen xs)) as [? E];
    [simpl; lia|].
  simpl in *. rewrite E. repeat split; (done || lia).
Qed.

(** C1, as the code has it: on every list with [length == 0], [LIST_POPF]
    and [LIST_POPB] read a field of the null boundary pointer; their
    behaviour is undefined, no error is reported and no state results. *)
Theorem pop_empty_undefined l m xs :
  is_list l m xs -> length l = 0 ->
  LIST_POPF l m = Undef NullDeref /\ LIST_POPB l m = Undef NullDeref.
Proof.
  intros Hlist Hlen.
  destruct (is_list_empty_iff _ _ _ Hlist) as (Hh & Ht & Hl).
  apply Hl in Hlen.
  unfold LIST_POPF, LIST_POPB, _LIST_POP. simpl.
  rewrite (proj2 Hh Hlen), (proj2 Ht Hlen). done.
Qed.

(** C3: a list constructed from the array [vs] and its length is
    traversed forward from [head] along [next] as [vs], and in reverse
    from [tail] along [prev] as [vs] reversed; the memory has room for
    the nodes. *)
Theorem new_list_traversal (vs : list T) (d : option fn) m :
  heap_top (nodes m) + Z.of_nat (llen vs) <= SIZE_MAX ->
  exists l m',
    new_list (Some vs) (Z.of_nat (llen vs)) d m = Ret (l, m')
    /\ forall fuel, (llen vs <= fuel)%nat ->
         LIST_FOR_EACH fuel l collect [] m' = Ret (vs, m')
         /\ LIST_FOR_EACH_REV fuel l collect [] m' = Ret (reverse vs, m').
Proof.
  intros Hroom.
  assert (heap_ok (nodes m)) as Hok by (apply heap_top_heap_ok; lia).
  destruct (new_list_loop_run vs (llen vs) 0 _ m [] (is_list_empty d m Hok))
    as (l & m' & xs & Hrun & Hlist & Hxs & _ & _); [lia|done|].
  simpl in Hlist. rewrite drop_0, take_ge in Hxs by done.
  exists l, m'. split.
  - unfold new_list. by rewrite Nat2Z.id.
  - intros fuel Hfuel.
    assert (llen xs <= fuel)%nat by (by rewrite <- (length_fmap snd), Hxs).
    pose proof (records_collect _ _ (il_linked _ _ _ Hlist)) as Hrec.
    rewrite (LIST_FOR_EACH_run _ _ _ _ _ _ Hlist Hrec) by done.
    rewrite (LIST_FOR_EACH_REV_run _ _ _ _ _ _ Hlist Hrec) by done.
    by rewrite fmap_reverse, Hxs.
Qed.

(** C4: when [malloc] returns a node [a] and the element argument has the
    value [v], [LIST_APPEND] and [LIST_PREPEND] return the old length plus
    one and store it in [length]; the new node holds the element and
    becomes the tail, respectively the head; on an empty list it becomes
    both; otherwise it is linked after the old tail, respectively before
    the old head, whose link to it and its link back are both set. *)
Theorem LIST_ADD_spec l m xs (elem : expr T fn T) v a :
  is_list l m xs -> malloc m = Ret (Some a, m) ->
  elem l m = Ret (v, m) ->
  (exists l' m',
     LIST_APPEND l elem m = Ret ((length l + 1, l'), m')
     /\ length l' = length l + 1
     /\ tail l' = Some a
     /\ head l' = (if decide (length l = 0) then Some a else head l)
     /\ nodes m' !! a = Some (Node NULL (tail l) v)
     /\ (forall t n, tail l = Some t -> nodes m !! t = Some n ->
           nodes m' !! t = Some (Node (Some a) (prev n) (entry n)))
     /\ is_list l' m' (xs ++ [(a, v)]))
  /\ (exists l' m',
     LIST_PREPEND l elem m = Ret ((length l + 1, l'), m')
     /\ length l' = length l + 1
     /\ head l' = Some a
     /\ tail l' = (if decide (length l = 0) then Some a else tail l)
     /\ nodes m' !! a = Some (Node (head l) NULL v)
     /\ (forall t n, head l = Some t -> nodes m !! t = Some n ->
           nodes m' !! t = Some (Node (next n) (Some a) (entry n)))
     /\ is_list l' m' ((a, v) :: xs)).
Proof.
  intros Hlist Hm Hv. destruct (malloc_inv _ _ Hm) as [Hfresh Ha].
  destruct (is_list_empty_iff _ _ _ Hlist) as (Hh & Ht & Hl).
  split; eexists _, _.
  - split; [by eapply LIST_APPEND_expr|]. simpl.
    split; [done|]. split; [done|]. split; [|split; [|split]].
    + case_decide as E; destruct (head l) eqn:Eh; simpl; rewrite ?Eh;
        try done.
      * by apply Hl, Hh in E.
      * destruct E. by apply Hl, Hh.
    + unfold added. by rewrite lookup_insert_eq.
    + intros t n Et Hn. unfold added.
      rewrite lookup_insert_ne by congruence.
      rewrite Et, lookup_patch_eq, Hn. done.
    + by apply is_list_appended.
  - split; [by eapply LIST_PREPEND_expr|]. simpl.
    split; [done|]. split; [done|]. split; [|split; [|split]].
    + case_decide as E; destruct (tail l) eqn:Eh; simpl; rewrite ?Eh;
        try done.
      * by apply Hl, Ht in E.
      * destruct E. by apply Hl, Ht.
    + unfold added. by rewrite lookup_insert_eq.
    + intros t n Et Hn. unfold added.
      rewrite lookup_insert_ne by congruence.
      rewrite Et, lookup_patch_eq, Hn. done.
    + by apply is_list_prepended.
Qed.


(** C5: on a non-empty list, [LIST_POPF] returns the entry of the head
    node and [LIST_POPB] that of the tail node; [length] goes down by
    one, the node is unlinked and freed, and no destructor is called. *)
Theorem LIST_POP_spec l m xs :
  is_list l m xs -> length l <> 0 ->
  (exists v l' m',
     load_entry (head l) m = Ret (v, m)
     /\ LIST_POPF l m = Ret ((v, l'), m')
     /\ length l' = length l - 1
     /\ (forall e, head l = Some e -> nodes m' !! e = None)
     /\ is_list l' m' (drop 1 xs)
     /\ calls m' = calls m)
  /\ (exists v l' m',
     load_entry (tail l) m = Ret (v, m)
     /\ LIST_POPB l m = Ret ((v, l'), m')
     /\ length l' = length l - 1
     /\ (forall e, tail l = Some e -> nodes m' !! e = None)
     /\ is_list l' m' (take (llen xs - 1) xs)
     /\ calls m' = calls m).
Proof.
  intros Hlist Hne.
  assert (0 < llen xs)%nat as Hpos.
  { rewrite (il_length _ _ _ Hlist) in Hne. lia. }
  destruct (lookup_lt_is_Some_2 xs 0) as [[a v] Ha]; [done|].
  destruct (lookup_lt_is_Some_2 xs (Nat.pred (llen xs))) as [[b w] Hb]; [lia|].
  assert (head l = Some a) as Hh by (by rewrite (il_head _ _ _ Hlist), Ha).
  assert (tail l = Some b) as Ht by (by rewrite (il_tail _ _ _ Hlist), Hb).
  split.
  - exists v; eexists _, _. rewrite Hh.
    split; [by rewrite (load_entry_eq _ _ _ (il_linked _ _ _ Hlist _ _ _ Ha))|].
    split; [by eapply (LIST_POP_run _ _ _ Fhead)|]. simpl.
    split; [done|]. split; [|split; [|done]].
    + intros e [= <-]. apply lookup_delete_eq.
    + replace (drop 1 xs) with (delete 0%nat xs) by (by destruct xs).
      by eapply is_list_deleted.
  - exists w; eexists _, _. rewrite Ht.
    split; [by rewrite (load_entry_eq _ _ _ (il_linked _ _ _ Hlist _ _ _ Hb))|].
    split; [by eapply (LIST_POP_run _ _ _ Ftail)|]. simpl.
    split; [done|]. split; [|split; [|done]].
    + intros e [= <-]. apply lookup_delete_eq.
    + replace (take (llen xs - 1) xs) with (delete (Nat.pred (llen xs)) xs).
      * by eapply is_list_deleted.
      * rewrite delete_take_drop, drop_ge, app_nil_r by lia.
        f_equal. lia.
Qed.

(** On a non-empty list a pop returns and calls no destructor. *)
Lemma LIST_POP_no_calls l m xs s :
  is_list l m xs -> (0 < llen xs)%nat ->
  exists w l' m', _LIST_POP l s m = Ret ((w, l'), m') /\ calls m' = calls m.
Proof.
  intros Hlist Hpos.
  set (i := match s with Fhead => 0%nat | Ftail => Nat.pred (llen xs) end).
  destruct (lookup_lt_is_Some_2 xs i) as [[a v] Ha].
  { destruct s; simpl; lia. }
  assert (get_boundary s l = Some a) as Hs.
  { subst i. destruct s; simpl.
    - by rewrite (il_head _ _ _ Hlist), Ha.
    - by rewrite (il_tail _ _ _ Hlist), Ha. }
  eexists _, _, _. split; [by eapply LIST_POP_run|done].
Qed.

(** X13: with a variable that holds a linked node as its node argument,
    [LIST_DEL] calls a configured destructor once, on the entry of the
    node it deletes, and [LIST_REMOVE] makes no call; [LIST_DESTROY]
    calls the destructor once on every entry, from head to tail;
    [LIST_POPF] and [LIST_POPB] make no call; with a null destructor
    neither [LIST_DEL] nor [LIST_DESTROY] makes one. *)
Theorem destructor_calls_spec l m xs i e v :
  is_list l m xs -> xs !! i = Some (e, v) ->
  (exists l' m',
     LIST_DEL l (local (Some e)) m = Ret (l', m')
     /\ calls m'
        = calls m ++ (if destructor l is Some d then [(d, v)] else []))
  /\ (forall fuel, (llen xs <= fuel)%nat -> exists l' m',
     LIST_DESTROY fuel l m = Ret (l', m')
     /\ calls m'
        = calls m ++ (if destructor l is Some d
                      then (fun w => (d, w)) <$> xs.*2 else []))
  /\ (exists r l' m',
     LIST_REMOVE l (local (Some e)) m = Ret ((r, l'), m') /\ calls m' = calls m)
  /\ (exists w l' m',
     LIST_POPF l m = Ret ((w, l'), m') /\ calls m' = calls m)
  /\ (exists w l' m',
     LIST_POPB l m = Ret ((w, l'), m') /\ calls m' = calls m).
Proof.
  intros Hlist Hi.
  assert (0 < llen xs)%nat as Hpos by (apply lookup_lt_Some in Hi; lia).
  split; [|split; [|split; [|split]]].
  - eexists _, _. split; [by eapply LIST_DEL_run|]. simpl.
    by destruct (destructor l).
  - intros fuel Hfuel.
    destruct (LIST_DESTROY_run _ _ _ _ Hlist Hfuel) as (l' & m' & Hrun & Hd).
    exists l', m'. split; [done|]. apply Hd.
  - eexists _, _, _. split; [by eapply LIST_REMOVE_run|done].
  - by apply (LIST_POP_no_calls _ _ _ Fhead Hlist).
  - by apply (LIST_POP_no_calls _ _ _ Ftail Hlist).
Qed.

(** C8: [LIST_DESTROY] deletes every node from head to tail, calling
    the destructor, if there is one, on each entry in that order; it
    leaves [head] and [tail] null and [length] zero; on a list that is
    already empty, and so on its own result, it changes nothing. *)
Theorem LIST_DESTROY_spec l m xs fuel :
  is_list l m xs -> (llen xs <= fuel)%nat ->
  exists l' m',
    LIST_DESTROY fuel l m = Ret (l', m')
    /\ head l' = None /\ tail l' = None /\ length l' = 0
    /\ (forall a, a ∈ xs.*1 -> nodes m' !! a = None)
    /\ calls m'
       = calls m ++ (if destructor l is Some d
                     then (fun w => (d, w)) <$> xs.*2 else [])
    /\ (length l = 0 -> l' = l /\ m' = m)
    /\ LIST_DESTROY fuel l' m' = Ret (l', m').
Proof.
  intros Hlist Hfuel.
  destruct (LIST_DESTROY_run _ _ _ _ Hlist Hfuel) as (l' & m' & Hrun & Hd).
  assert (forall l0 m0, head l0 = None ->
            LIST_DESTROY fuel l0 m0 = Ret (l0, m0)) as Hnop.
  { intros l0 m0 E.
    unfold LIST_DESTROY, LIST_FOR_EACH_SAFE, _LIST_FOR_EACH_SAFE. simpl.
    rewrite E. unfold ret at 1, bind at 1. by destruct fuel. }
  exists l', m'. destruct Hd as [Hh Ht Hl _ Hc Hf _ _].
  repeat (split; [done|]). split; [|by apply Hnop].
  intros E. destruct (is_list_empty_iff _ _ _ Hlist) as (Hh' & _ & Hl').
  apply Hl', Hh' in E.
  rewrite (Hnop _ _ E) in Hrun. by injection Hrun as <- <-.
Qed.






(** X12: in every state reached by the constructor and the macros with
    variables of the caller as element and node arguments, [head] is null
    iff [tail] is null iff [length] is zero; when [length] is one, [head]
    equals [tail]; the nodes visited from [head] along [next] are those
    visited from [tail] along [prev], in the opposite order, and there
    are [length] of them. *)
Theorem reachable_invariant l m :
  reachable l m ->
  (head l = None <-> tail l = None)
  /\ (tail l = None <-> length l = 0)
  /\ (length l = 1 -> head l = tail l)
  /\ exists ns : list ptr,
       length l = Z.of_nat (llen ns)
       /\ forall fuel, (llen ns <= fuel)%nat ->
            LIST_FOR_EACH fuel l visit [] m = Ret (ns, m)
            /\ LIST_FOR_EACH_REV fuel l visit [] m = Ret (reverse ns, m).
Proof.
  intros [xs Hlist]%reachable_is_list.
  destruct (is_list_empty_iff _ _ _ Hlist) as (Hh & Ht & Hl).
  split; [by rewrite Hh, Ht|]. split; [by rewrite Ht, Hl|]. split.
  - rewrite (il_length _ _ _ Hlist), (il_head _ _ _ Hlist),
      (il_tail _ _ _ Hlist).
    intros E. by replace (llen xs) with 1%nat by lia.
  - exists ((fun x => Some x.1) <$> xs). rewrite length_fmap.
    split; [apply Hlist|]. intros fuel Hfuel.
    rewrite (LIST_FOR_EACH_run _ _ _ _ _ _ Hlist (records_visit _ _)) by done.
    rewrite (LIST_FOR_EACH_REV_run _ _ _ _ _ _ Hlist (records_visit _ _))
      by done.
    by rewrite fmap_reverse.
Qed.

(** C10: with a null initializer the constructor returns the empty list
    with the destructor stored, whatever [len] is; with an array it
    appends the first [len] entries. *)
Theorem new_list_null_initializer :
  (forall (len : Z) (d : option fn) m,
     new_list None len d m = Ret (Sentinal NULL NULL 0 d, m))
  /\ (forall (initializer : list T) (len : Z) (d : option fn) m,
     0 <= len <= Z.of_nat (llen initializer) ->
     heap_top (nodes m) + len <= SIZE_MAX ->
     exists l m' xs,
       new_list (Some initializer) len d m = Ret (l, m')
       /\ is_list l m' xs
       /\ xs.*2 = take (Z.to_nat len) initializer
       /\ destructor l = d).
Proof.
  split; [done|]. intros arr len d m Hlen Hroom.
  assert (heap_ok (nodes m)) as Hok by (apply heap_top_heap_ok; lia).
  destruct (new_list_loop_run arr (Z.to_nat len) 0 _ m []
              (is_list_empty d m Hok))
    as (l & m' & xs & Hrun & Hlist & Hxs & Hd & _); [lia|lia|].
  exists l, m', xs. by rewrite drop_0 in Hxs.
Qed.

End Specification.

(** ** Iteration with the deletion-safe iterators *)

Section Iteration.
Context {T fn : Type}.
Implicit Types (l : list_sentinal fn) (m : mem T fn).
Implicit Types (h : gmap addr (list_node T)) (xs : list (addr * T)).

Lemma load_link_freed d a m :
  nodes m !! a = None -> load_link d (Some a) m = Undef InvalidDeref.
Proof. intros Ha. unfold load_link, bind, load. by rewrite Ha. Qed.

(** The step [if (var) temp = var->direction;] of the safe iterators. *)
Lemma safe_step_forward xs m j (old : ptr) :
  linked (nodes m) xs -> (xs !! j = None -> old = None) ->
  (if fst <$> xs !! j is Some _
   then load_link Fnext (fst <$> xs !! j) else ret old) m
  = Ret (fst <$> xs !! S j, m).
Proof.
  intros Hl Hold. destruct (xs !! j) as [[a v]|] eqn:E; simpl.
  - by erewrite load_link_eq by (by eapply Hl).
  - rewrite Hold by done. unfold ret. do 2 f_equal.
    apply lookup_ge_None in E. rewrite lookup_ge_None_2 by lia. done.
Qed.

Lemma safe_step_backward xs m j (old : ptr) :
  linked (nodes m) xs -> (j <= llen xs)%nat ->
  (pred_at xs j = None -> old = None) ->
  (if fst <$> pred_at xs j is Some _
   then load_link Fprev (fst <$> pred_at xs j) else ret old) m
  = Ret (fst <$> pred_at xs (Nat.pred j), m).
Proof.
  intros Hl Hj Hold. destruct (pred_at xs j) as [[a v]|] eqn:E; simpl.
  - destruct j as [|j]; [done|]. simpl in *.
    by erewrite load_link_eq by (by eapply Hl).
  - rewrite Hold by done. unfold ret. do 2 f_equal.
    destruct j as [|j]; [done|]. simpl in *.
    apply lookup_ge_None in E. lia.
Qed.

Lemma for_each_safe_forward {B} xs m (g : addr * T -> B) callback fuel k acc :
  linked (nodes m) xs -> records xs m g callback ->
  (llen xs - k <= fuel)%nat ->
  for_each_safe_loop fuel Fnext callback
    (fst <$> xs !! k) (fst <$> xs !! S k) acc m
  = Ret (acc ++ (g <$> drop k xs), m).
Proof.
  intros Hl Hcb. revert k acc.
  induction fuel as [|fuel IH]; intros k acc Hfuel;
    destruct (xs !! k) as [[a v]|] eqn:Ek; simpl.
  - apply lookup_lt_Some in Ek. lia.
  - rewrite drop_ge by (by apply lookup_ge_None). by rewrite app_nil_r.
  - erewrite bind_eq by (by eapply Hcb).
    erewrite bind_eq by (apply safe_step_forward; [done|by intros ->]).
    simpl. rewrite IH by lia.
    by rewrite (drop_S _ _ _ Ek), fmap_cons, <- app_assoc.
  - rewrite drop_ge by (by apply lookup_ge_None). by rewrite app_nil_r.
Qed.

Lemma for_each_safe_backward {B} xs m (g : addr * T -> B) callback fuel k acc :
  linked (nodes m) xs -> records xs m g callback ->
  (k <= fuel)%nat -> (k <= llen xs)%nat ->
  for_each_safe_loop fuel Fprev callback
    (fst <$> pred_at xs k) (fst <$> pred_at xs (Nat.pred k)) acc m
  = Ret (acc ++ (g <$> reverse (take k xs)), m).
Proof.
  intros Hl Hcb. revert k acc.
  induction fuel as [|fuel IH]; intros [|k] acc Hfuel Hk; simpl;
    try (by rewrite app_nil_r); try lia.
  destruct (lookup_lt_is_Some_2 xs k) as [[a v] Ek]; [lia|].
  rewrite Ek. simpl.
  erewrite bind_eq by (by eapply Hcb).
  erewrite bind_eq by (apply safe_step_backward; [done|lia|by intros ->]).
  simpl. rewrite IH by lia.
  rewrite (take_S_r _ _ _ Ek), reverse_snoc, fmap_cons, <- app_assoc. done.
Qed.

(** X3: the deletion-safe iterators visit the nodes as the plain ones do:
    with a callback that only reads the entries, [LIST_FOR_EACH_SAFE]
    sees them from head to tail and [LIST_FOR_EACH_REV_SAFE] from tail to
    head, and memory is unchanged. *)
Theorem safe_traversal_order l m xs fuel :
  is_list l m xs -> (llen xs <= fuel)%nat ->
  LIST_FOR_EACH_SAFE fuel l collect [] m = Ret (xs.*2, m)
  /\ LIST_FOR_EACH_REV_SAFE fuel l collect [] m = Ret (reverse xs.*2, m).
Proof.
  intros Hlist Hfuel.
  pose proof (records_collect _ _ (il_linked _ _ _ Hlist)) as Hrec.
  destruct Hlist as [_ Hl Hhd Htl _ _].
  unfold LIST_FOR_EACH_SAFE, LIST_FOR_EACH_REV_SAFE, _LIST_FOR_EACH_SAFE.
  simpl. rewrite Hhd, Htl. split.
  - erewrite bind_eq by (by apply safe_step_forward).
    simpl. erewrite for_each_safe_forward by (done || lia). by rewrite drop_0.
  - replace (xs !! Nat.pred (llen xs)) with (pred_at xs (llen xs)); cycle 1.
    { destruct (llen xs) eqn:E; [|done].
      by apply nil_length_inv in E as ->. }
    erewrite bind_eq by (by apply safe_step_backward).
    simpl. erewrite for_each_safe_backward by (done || lia).
    by rewrite take_ge, fmap_reverse.
Qed.

(** X4: deleting the current node inside the plain iterators is a use
    after free: on every non-empty list the first step frees the node
    and then reads its link. *)
Theorem unsafe_delete_undefined l m xs fuel :
  is_list l m xs -> length l <> 0 -> (0 < fuel)%nat ->
  LIST_FOR_EACH fuel l delete_each l m = Undef InvalidDeref
  /\ LIST_FOR_EACH_REV fuel l delete_each l m = Undef InvalidDeref.
Proof.
  intros Hlist Hne Hfuel.
  assert (0 < llen xs)%nat as Hpos.
  { rewrite (il_length _ _ _ Hlist) in Hne. lia. }
  destruct fuel as [|fuel]; [lia|].
  destruct (lookup_lt_is_Some_2 xs 0) as [[a v] Ha]; [done|].
  destruct (lookup_lt_is_Some_2 xs (Nat.pred (llen xs))) as [[b w] Hb]; [lia|].
  unfold LIST_FOR_EACH, LIST_FOR_EACH_REV, _LIST_FOR_EACH, delete_each.
  simpl. rewrite (il_head _ _ _ Hlist), (il_tail _ _ _ Hlist), Ha, Hb. simpl.
  split.
  - erewrite bind_eq by (by eapply LIST_DEL_run).
    unfold bind. rewrite load_link_freed; [done|]. apply lookup_delete_eq.
  - erewrite bind_eq by (by eapply LIST_DEL_run).
    unfold bind. rewrite load_link_freed; [done|]. apply lookup_delete_eq.
Qed.

End Iteration.

(** ** Deleting while iterating *)

Section Filter.
Context {T fn : Type}.
Implicit Types (l : list_sentinal fn) (m : mem T fn).
Implicit Types (h : gmap addr (list_node T)) (xs : list (addr * T)).

Lemma destructor_calls_app (d : option fn) (vs ws : list T) :
  destructor_calls d (vs ++ ws) = destructor_calls d vs ++ destructor_calls d ws.
Proof. destruct d; simpl; [apply fmap_app|done]. Qed.

Lemma delete_middle {A} (pre post : list A) x :
  delete (llen pre) (pre ++ x :: post) = pre ++ post.
Proof. induction pre as [|y pre IH]; simpl; [done|by rewrite IH]. Qed.

Lemma elem_of_fst_middle (pre post : list (addr * T)) a v b :
  b ∈ (pre ++ (a, v) :: post).*1 <-> b = a \/ b ∈ (pre ++ post).*1.
Proof.
  rewrite !fmap_app, fmap_cons, !elem_of_app, elem_of_cons. simpl. tauto.
Qed.

Lemma delete_if_run p l m xs i a v :
  is_list l m xs -> xs !! i = Some (a, v) ->
  delete_if p (Some a) l m
  = if p v
    then Ret (unlinked_sentinal l xs i a,
              Mem (delete a (unlinked (nodes m) xs i))
                  (calls m ++ destructor_calls (destructor l) [v]))
    else Ret (l, m).
Proof.
  intros Hlist Hi. unfold delete_if.
  erewrite bind_eq by (by eapply load_entry_eq, (il_linked _ _ _ Hlist)).
  simpl. destruct (p v); [by eapply LIST_DEL_run|done].
Qed.

Lemma lookup_middle_S {A} (pre post : list A) x :
  (pre ++ x :: post) !! S (llen pre) = (pre ++ post) !! llen pre.
Proof. induction pre as [|y pre IH]; simpl; [done|by rewrite IH]. Qed.

Lemma delete_if_forward p post :
  forall pre l m fuel,
  is_list l m (pre ++ post) -> (llen post <= fuel)%nat ->
  exists l' m',
    for_each_safe_loop fuel Fnext (delete_if p)
      (fst <$> (pre ++ post) !! llen pre)
      (fst <$> (pre ++ post) !! S (llen pre)) l m = Ret (l', m')
    /\ filtered l m (pre ++ post) l' m'
         (pre ++ List.filter (fun x => negb (p x.2)) post)
         (List.filter p post.*2).
Proof.
  induction post as [|[a v] post IH]; intros pre l m fuel Hlist Hfuel.
  - exists l, m. split.
    + rewrite app_nil_r, (lookup_ge_None_2 pre) by lia. by destruct fuel.
    + split; try done. by destruct (destructor l); simpl; rewrite app_nil_r.
  - destruct fuel as [|fuel]; [simpl in Hfuel; lia|].
    assert ((pre ++ (a, v) :: post) !! llen pre = Some (a, v)) as Hi.
    { by rewrite list_lookup_middle. }
    pose proof (delete_if_run p _ _ _ _ _ _ Hlist Hi) as Hcb.
    rewrite Hi. simpl for_each_safe_loop. simpl fmap at 1.
    simpl List.filter. destruct (p v) eqn:Ep; simpl negb; cbv iota.
    + pose proof (is_list_deleted l m _ _ a v
        (calls m ++ destructor_calls (destructor l) [v]) Hlist Hi) as Hlist'.
      rewrite delete_middle in Hlist'.
      destruct (IH pre _ _ fuel Hlist') as (l' & m' & Hrun & Hf);
        [simpl in Hfuel; lia|].
      exists l', m'. split.
      * erewrite bind_eq by exact Hcb.
        rewrite lookup_middle_S.
        erewrite bind_eq; [exact Hrun|].
        apply safe_step_forward; [apply Hlist'|by intros ->].
      * destruct Hf as [Hl' Hd Hc Hfreed Hothers].
        assert (a ∉ (pre ++ post).*1) as Hnotin.
        { rewrite <- (delete_middle pre post (a, v)).
          eapply not_elem_of_delete_addr; [apply Hlist|done]. }
        split; [done|done| | |].
        -- rewrite Hc. simpl. rewrite <- app_assoc.
           by rewrite <- destructor_calls_app.
        -- intros b Hb Hb'.
           destruct (decide (b ∈ (pre ++ post).*1)) as [Hin|Hnin];
             [by apply Hfreed|].
           rewrite Hothers by done. simpl.
           apply elem_of_fst_middle in Hb as [->|Hb]; [|done].
           apply lookup_delete_eq.
        -- intros b Hb. rewrite Hothers; cycle 1.
           { intros Hin. apply Hb, elem_of_fst_middle. by right. }
           simpl. rewrite lookup_delete_ne; cycle 1.
           { intros ->. apply Hb, elem_of_fst_middle. by left. }
           by apply lookup_unlinked_other.
    + assert (pre ++ (a, v) :: post = (pre ++ [(a, v)]) ++ post) as Eq.
      { by rewrite <- app_assoc. }
      assert (S (llen pre) = llen (pre ++ [(a, v)])) as El.
      { rewrite length_app. simpl. lia. }
      destruct (IH (pre ++ [(a, v)]) l m fuel) as (l' & m' & Hrun & Hf).
      { by rewrite <- Eq. }
      { simpl in Hfuel; lia. }
      exists l', m'. split.
      * erewrite bind_eq by exact Hcb.
        rewrite Eq, El.
        erewrite bind_eq; [exact Hrun|].
        apply safe_step_forward; [|by intros ->].
        rewrite <- Eq. apply Hlist.
      * rewrite <- Eq in Hf. rewrite <- app_assoc in Hf. done.
Qed.


Lemma pred_at_middle {A} (pre post : list A) x :
  pred_at (pre ++ x :: post) (llen pre) = pred_at (pre ++ post) (llen pre).
Proof.
  destruct (llen pre) as [|n] eqn:E; [done|]. simpl.
  by rewrite !lookup_app_l by lia.
Qed.

Lemma delete_if_backward p pre :
  forall post l m fuel,
  is_list l m (pre ++ post) -> (llen pre <= fuel)%nat ->
  exists l' m',
    for_each_safe_loop fuel Fprev (delete_if p)
      (fst <$> pred_at (pre ++ post) (llen pre))
      (fst <$> pred_at (pre ++ post) (Nat.pred (llen pre))) l m = Ret (l', m')
    /\ filtered l m (pre ++ post) l' m'
         (List.filter (fun x => negb (p x.2)) pre ++ post)
         (List.filter p (reverse pre.*2)).
Proof.
  induction pre as [|[a v] pre IH] using rev_ind;
    intros post l m fuel Hlist Hfuel.
  - exists l, m. split; [by destruct fuel|]. split; try done.
    by destruct (destructor l); simpl; rewrite app_nil_r.
  - rewrite length_app in Hfuel. simpl in Hfuel.
    destruct fuel as [|fuel]; [lia|].
    rewrite <- app_assoc in Hlist |- *. simpl in Hlist |- *.
    assert ((pre ++ (a, v) :: post) !! llen pre = Some (a, v)) as Hi.
    { by rewrite list_lookup_middle. }
    pose proof (delete_if_run p _ _ _ _ _ _ Hlist Hi) as Hcb.
    rewrite length_app, Nat.add_1_r. cbn [pred_at Nat.pred].
    rewrite Hi. simpl for_each_safe_loop. simpl fmap at 1.
    rewrite fmap_app, reverse_app, List.filter_app. simpl.
    destruct (p v) eqn:Ep; simpl.
    + pose proof (is_list_deleted l m _ _ a v
        (calls m ++ destructor_calls (destructor l) [v]) Hlist Hi) as Hlist'.
      rewrite delete_middle in Hlist'.
      destruct (IH post _ _ fuel Hlist') as (l' & m' & Hrun & Hf); [lia|].
      exists l', m'. split.
      * erewrite bind_eq by exact Hcb.
        rewrite pred_at_middle.
        erewrite bind_eq; [exact Hrun|].
        apply safe_step_backward; [apply Hlist'| |by intros ->].
        rewrite length_app. lia.
      * destruct Hf as [Hl' Hd Hc Hfreed Hothers].
        assert (a ∉ (pre ++ post).*1) as Hnotin.
        { rewrite <- (delete_middle pre post (a, v)).
          eapply not_elem_of_delete_addr; [apply Hlist|done]. }
        rewrite app_nil_r.
        split; [done|done| | |].
        -- rewrite Hc. simpl. rewrite <- app_assoc.
           by rewrite <- destructor_calls_app.
        -- intros b Hb Hb'.
           destruct (decide (b ∈ (pre ++ post).*1)) as [Hin|Hnin];
             [by apply Hfreed|].
           rewrite Hothers by done. simpl.
           apply elem_of_fst_middle in Hb as [->|Hb]; [|done].
           apply lookup_delete_eq.
        -- intros b Hb. rewrite Hothers; cycle 1.
           { intros Hin. apply Hb, elem_of_fst_middle. by right. }
           simpl. rewrite lookup_delete_ne; cycle 1.
           { intros ->. apply Hb, elem_of_fst_middle. by left. }
           by apply lookup_unlinked_other.
    + destruct (IH ((a, v) :: post) l m fuel Hlist) as (l' & m' & Hrun & Hf);
        [lia|].
      exists l', m'. split.
      * erewrite bind_eq by exact Hcb.
        erewrite bind_eq; [exact Hrun|].
        apply safe_step_backward; [apply Hlist| |by intros ->].
        rewrite length_app. lia.
      * by rewrite <- app_assoc.
Qed.


Lemma filtered_freed l m xs l' m' p vs a v :
  NoDup xs.*1 ->
  filtered l m xs l' m' (List.filter (fun x => negb (p x.2)) xs) vs ->
  (a, v) ∈ xs -> p v = true -> nodes m' !! a = None.
Proof.
  intros Hnd Hf Hin Hp. apply (fi_freed _ _ _ _ _ _ _ Hf).
  - apply list_elem_of_fmap. by exists (a, v).
  - intros [[a' w] [? Hw]]%list_elem_of_fmap. simplify_eq/=.
    apply list_elem_of_In, List.filter_In in Hw as [Hw Hpw].
    apply list_elem_of_In in Hw. simpl in Hpw.
    apply list_elem_of_lookup in Hin as [i Hi].
    apply list_elem_of_lookup in Hw as [j Hj].
    assert (i = j) by eauto using addr_inj. simplify_eq.
    by rewrite Hp in Hpw.
Qed.

(** X1: a deletion-safe forward traversal that deletes the nodes whose
    entry satisfies [p] leaves the list of the other nodes, in their
    order; the deleted nodes are freed and the destructor, if there is
    one, is called on their entries from head to tail. *)
Theorem safe_delete_if l m xs p fuel :
  is_list l m xs -> (llen xs <= fuel)%nat ->
  exists l' m',
    LIST_FOR_EACH_SAFE fuel l (delete_if p) l m = Ret (l', m')
    /\ is_list l' m' (List.filter (fun x => negb (p x.2)) xs)
    /\ calls m'
       = calls m ++ destructor_calls (destructor l) (List.filter p xs.*2)
    /\ (forall a v, (a, v) ∈ xs -> p v = true -> nodes m' !! a = None).
Proof.
  intros Hlist Hfuel.
  destruct (delete_if_forward p xs [] l m fuel Hlist Hfuel)
    as (l' & m' & Hrun & Hf).
  exists l', m'. split; [|split; [apply Hf|split; [apply Hf|]]].
  - unfold LIST_FOR_EACH_SAFE, _LIST_FOR_EACH_SAFE. simpl.
    rewrite (il_head _ _ _ Hlist).
    erewrite bind_eq; [exact Hrun|].
    apply safe_step_forward; [apply Hlist|done].
  - intros a v. eapply filtered_freed; [apply Hlist|exact Hf].
Qed.

(** X2: a deletion-safe reverse traversal that deletes the nodes whose
    entry satisfies [p] leaves the same list as the forward one; the
    destructor is called on the deleted entries from tail to head. *)
Theorem safe_delete_if_rev l m xs p fuel :
  is_list l m xs -> (llen xs <= fuel)%nat ->
  exists l' m',
    LIST_FOR_EACH_REV_SAFE fuel l (delete_if p) l m = Ret (l', m')
    /\ is_list l' m' (List.filter (fun x => negb (p x.2)) xs)
    /\ calls m'
       = calls m
         ++ destructor_calls (destructor l) (List.filter p (reverse xs.*2))
    /\ (forall a v, (a, v) ∈ xs -> p v = true -> nodes m' !! a = None).
Proof.
  intros Hlist Hfuel.
  assert (is_list l m (xs ++ [])) as Hlist' by (by rewrite app_nil_r).
  destruct (delete_if_backward p xs [] l m fuel Hlist' Hfuel)
    as (l' & m' & Hrun & Hf).
  rewrite !app_nil_r in Hrun. rewrite !app_nil_r in Hf.
  exists l', m'. split; [|split; [apply Hf|split; [apply Hf|]]].
  - unfold LIST_FOR_EACH_REV_SAFE, _LIST_FOR_EACH_SAFE. simpl.
    rewrite (il_tail _ _ _ Hlist).
    replace (xs !! Nat.pred (llen xs)) with (pred_at xs (llen xs)); cycle 1.
    { destruct (llen xs) eqn:E; [|done].
      by apply nil_length_inv in E as ->. }
    erewrite bind_eq; [exact Hrun|].
    apply safe_step_backward; [apply Hlist|done|done].
  - intros a v. eapply filtered_freed; [apply Hlist|exact Hf].
Qed.

End Filter.

(** ** Updating entries in place *)

Section Update.
Context {T fn : Type}.
Implicit Types (l : list_sentinal fn) (m : mem T fn).
Implicit Types (h : gmap addr (list_node T)) (xs : list (addr * T)).

Lemma store_entry_eq a n v m :
  nodes m !! a = Some n ->
  store_entry (Some a) v m
  = Ret (tt, Mem (<[a := Node (next n) (prev n) v]> (nodes m)) (calls m)).
Proof.
  intros Ha. unfold store_entry, bind, load, store.
  rewrite Ha. simpl. by rewrite Ha.
Qed.

Lemma fst_lookup_insert xs i a v w k :
  xs !! i = Some (a, v) ->
  fst <$> (<[i := (a, w)]> xs) !! k = fst <$> xs !! k.
Proof.
  intros Hi. destruct (decide (i = k)) as [->|Hne].
  - rewrite list_lookup_insert_eq by (by eapply lookup_lt_Some).
    by rewrite Hi.
  - by rewrite list_lookup_insert_ne.
Qed.

Lemma fst_pred_at_insert xs i a v w k :
  xs !! i = Some (a, v) ->
  fst <$> pred_at (<[i := (a, w)]> xs) k = fst <$> pred_at xs k.
Proof. intros Hi. destruct k; [done|]. simpl. by eapply fst_lookup_insert. Qed.

(** The list after [a->entry = w] for the node at position [i]. *)
Lemma is_list_store_entry l m xs i a v w c :
  is_list l m xs -> xs !! i = Some (a, v) ->
  is_list l
    (Mem (<[a := Node (fst <$> xs !! S i) (fst <$> pred_at xs i) w]> (nodes m)) c)
    (<[i := (a, w)]> xs).
Proof.
  intros [Hnd Hl Hhd Htl Hlen Hok] Hi.
  assert ((<[i := (a, w)]> xs).*1 = xs.*1) as Efst.
  { rewrite list_fmap_insert. apply list_insert_id.
    by rewrite list_lookup_fmap, Hi. }
  split; simpl.
  - by rewrite Efst.
  - intros j b u Hj.
    rewrite (fst_lookup_insert _ _ _ _ _ _ Hi), (fst_pred_at_insert _ _ _ _ _ _ Hi).
    destruct (decide (i = j)) as [->|Hne].
    + rewrite list_lookup_insert_eq in Hj by (by eapply lookup_lt_Some).
      simplify_eq. by rewrite lookup_insert_eq.
    + rewrite list_lookup_insert_ne in Hj by done.
      rewrite lookup_insert_ne; [by apply Hl|].
      intros ->. eauto using addr_inj.
  - by rewrite (fst_lookup_insert _ _ _ _ _ _ Hi).
  - by rewrite length_insert, (fst_lookup_insert _ _ _ _ _ _ Hi).
  - by rewrite length_insert.
  - intros b n. rewrite lookup_insert. case_decide; subst; [|by apply Hok].
    intros _. eapply Hok, Hl, Hi.
Qed.

Lemma insert_middle {A} (pre post : list A) x y :
  <[llen pre := y]> (pre ++ x :: post) = pre ++ y :: post.
Proof. induction pre as [|z pre IH]; simpl; [done|by rewrite IH]. Qed.

Lemma update_forward f post :
  forall pre l m fuel,
  is_list l m (pre ++ post) -> (llen post <= fuel)%nat ->
  exists m',
    for_each_loop fuel Fnext (update f)
      (fst <$> (pre ++ post) !! llen pre) tt m = Ret (tt, m')
    /\ is_list l m' (pre ++ (prod_map id f <$> post))
    /\ calls m' = calls m.
Proof.
  induction post as [|[a v] post IH]; intros pre l m fuel Hlist Hfuel.
  - exists m. split; [|done].
    rewrite app_nil_r, (lookup_ge_None_2 pre) by lia. by destruct fuel.
  - destruct fuel as [|fuel]; [simpl in Hfuel; lia|].
    assert ((pre ++ (a, v) :: post) !! llen pre = Some (a, v)) as Hi.
    { by rewrite list_lookup_middle. }
    pose proof (il_linked _ _ _ Hlist _ _ _ Hi) as Ha.
    pose proof (is_list_store_entry _ _ _ _ _ _ (f v) (calls m) Hlist Hi)
      as Hlist'.
    rewrite insert_middle in Hlist'.
    assert (pre ++ (a, f v) :: post = (pre ++ [(a, f v)]) ++ post) as Eq.
    { by rewrite <- app_assoc. }
    assert (S (llen pre) = llen (pre ++ [(a, f v)])) as El.
    { rewrite length_app. simpl. lia. }
    rewrite Eq in Hlist'.
    destruct (IH (pre ++ [(a, f v)]) l _ fuel Hlist') as (m' & Hrun & Hl' & Hc).
    { simpl in Hfuel. lia. }
    exists m'. split; [|split].
    + rewrite Hi. simpl for_each_loop.
      erewrite bind_eq; cycle 1.
      { unfold update. erewrite bind_eq by (by apply load_entry_eq).
        erewrite bind_eq by (by apply store_entry_eq). reflexivity. }
      erewrite bind_eq; cycle 1.
      { apply load_link_eq. simpl. apply lookup_insert_eq. }
      simpl get_link. rewrite lookup_middle_S in Hrun |- *.
      rewrite <- Eq, <- El in Hrun.
      rewrite lookup_middle_S in Hrun. exact Hrun.
    + rewrite <- app_assoc in Hl'. done.
    + by rewrite Hc.
Qed.

(** X5: a traversal whose callback stores [f] of the entry back into
    the node maps [f] over the entries: the same nodes stay linked in
    the same order, the sentinel is unchanged, no destructor is called. *)
Theorem update_maps_entries l m xs f fuel :
  is_list l m xs -> (llen xs <= fuel)%nat ->
  exists m',
    LIST_FOR_EACH fuel l (update f) tt m = Ret (tt, m')
    /\ is_list l m' (prod_map id f <$> xs)
    /\ LIST_FOR_EACH fuel l collect [] m' = Ret (f <$> xs.*2, m')
    /\ calls m' = calls m.
Proof.
  intros Hlist Hfuel.
  destruct (update_forward f xs [] l m fuel Hlist Hfuel) as (m' & Hrun & Hl' & Hc).
  simpl in Hl'. exists m'. split; [|split; [done|split; [|done]]].
  - unfold LIST_FOR_EACH, _LIST_FOR_EACH. simpl.
    by rewrite (il_head _ _ _ Hlist).
  - pose proof (records_collect _ _ (il_linked _ _ _ Hl')) as Hrec.
    rewrite (LIST_FOR_EACH_run _ _ _ _ _ _ Hl' Hrec)
      by (by rewrite length_fmap).
    do 2 f_equal. rewrite <- !list_fmap_compose. by apply list_fmap_ext.
Qed.

End Update.

(** ** Adding and popping *)

Section RoundTrip.
Context {T fn : Type}.
Implicit Types (l : list_sentinal fn) (m : mem T fn).
Implicit Types (h : gmap addr (list_node T)) (xs : list (addr * T)).

(** Two sentinels for the same list with the same destructor are equal. *)
Lemma is_list_sentinal_eq l m l' m' xs :
  is_list l m xs -> is_list l' m' xs -> destructor l' = destructor l ->
  l' = l.
Proof.
  intros [_ _ Hh Ht Hl _] [_ _ Hh' Ht' Hl' _] Hd.
  destruct l, l'; simpl in *. congruence.
Qed.

(** Two stores that hold the same list and agree elsewhere are equal. *)
Lemma is_list_nodes_eq l m l' m' xs :
  is_list l m xs -> is_list l' m' xs ->
  (forall b, b ∉ xs.*1 -> nodes m' !! b = nodes m !! b) ->
  nodes m' = nodes m.
Proof.
  intros Hlist Hlist' Hothers. apply map_eq. intros b.
  destruct (decide (b ∈ xs.*1)) as [Hin|Hnin]; [|by apply Hothers].
  apply list_elem_of_fmap in Hin as [[b' v] [-> [i Hi]%list_elem_of_lookup]].
  simpl. by rewrite (il_linked _ _ _ Hlist _ _ _ Hi),
    (il_linked _ _ _ Hlist' _ _ _ Hi).
Qed.

Lemma mem_eq m m' : nodes m' = nodes m -> calls m' = calls m -> m' = m.
Proof. destruct m, m'; simpl. by intros -> ->. Qed.

Lemma lookup_added_other h d r t a v b :
  b <> a -> t <> Some b -> added h d r t a v !! b = h !! b.
Proof.
  intros Hba Ht. unfold added.
  by rewrite lookup_insert_ne, lookup_patch_ne.
Qed.

Lemma boundary_in_list l m xs s t :
  is_list l m xs -> get_boundary s l = Some t -> t ∈ xs.*1.
Proof.
  intros Hlist Ht.
  assert (exists i, fst <$> xs !! i = Some t) as [i Hi].
  { destruct s; simpl in Ht.
    - exists 0%nat. by rewrite <- (il_head _ _ _ Hlist).
    - exists (Nat.pred (llen xs)). by rewrite <- (il_tail _ _ _ Hlist). }
  rewrite <- list_lookup_fmap in Hi. eapply list_elem_of_lookup_2, Hi.
Qed.

Lemma delete_last {A} (ys : list A) x : delete (llen ys) (ys ++ [x]) = ys.
Proof. by rewrite delete_middle, app_nil_r. Qed.

(** X6: appending an entry and popping at the back, or prepending and
    popping at the front, yields that entry and restores the sentinel
    and the memory exactly. *)
Theorem add_pop_round_trip l m xs v a :
  is_list l m xs -> malloc m = Ret (Some a, m) ->
  bind (LIST_APPEND l (local v)) (fun r => LIST_POPB r.2) m = Ret ((v, l), m)
  /\ bind (LIST_PREPEND l (local v)) (fun r => LIST_POPF r.2) m = Ret ((v, l), m).
Proof.
  intros Hlist Hm. destruct (malloc_inv _ _ Hm) as [Hfresh Ha].
  assert (a ∉ xs.*1) as Hnotin.
  { intros [n Hn]%(linked_allocated _ _ _ (il_linked _ _ _ Hlist)).
    congruence. }
  split.
  - erewrite bind_eq by (by eapply LIST_APPEND_run). simpl.
    pose proof (is_list_appended _ _ _ a v (calls m) Hlist Hfresh Ha) as H1.
    assert ((xs ++ [(a, v)]) !! llen xs = Some (a, v)) as Hi.
    { by rewrite list_lookup_middle. }
    unfold LIST_POPB.
    erewrite (LIST_POP_run _ _ _ Ftail) by done.
    pose proof (is_list_deleted _ _ _ _ _ _ (calls m) H1 Hi) as H2.
    rewrite delete_last in H2.
    assert (destructor (unlinked_sentinal (added_sentinal l Ftail Fhead a)
              (xs ++ [(a, v)]) (llen xs) a) = destructor l) as Hd.
    { apply (destructor_added_sentinal l). }
    rewrite (is_list_sentinal_eq _ _ _ _ _ Hlist H2 Hd).
    do 2 f_equal. apply mem_eq; [|done].
    apply (is_list_nodes_eq _ _ _ _ _ Hlist H2). simpl. intros b Hb.
    destruct (decide (b = a)) as [->|Hba].
    + by rewrite lookup_delete_eq.
    + rewrite lookup_delete_ne by done.
      rewrite lookup_unlinked_other; cycle 1.
      { rewrite fmap_app. apply not_elem_of_app. split; [done|].
        simpl. by intros ?%list_elem_of_singleton. }
      apply lookup_added_other; [done|].
      intros Ht. apply Hb. exact (boundary_in_list l m xs Ftail b Hlist Ht).
  - erewrite bind_eq by (by eapply LIST_PREPEND_run). simpl.
    pose proof (is_list_prepended _ _ _ a v (calls m) Hlist Hfresh Ha) as H1.
    assert (((a, v) :: xs) !! 0%nat = Some (a, v)) as Hi by done.
    unfold LIST_POPF.
    erewrite (LIST_POP_run _ _ _ Fhead) by done.
    pose proof (is_list_deleted _ _ _ _ _ _ (calls m) H1 Hi) as H2.
    simpl delete in H2.
    assert (destructor (unlinked_sentinal (added_sentinal l Fhead Ftail a)
              ((a, v) :: xs) 0 a) = destructor l) as Hd.
    { apply (destructor_added_sentinal l). }
    rewrite (is_list_sentinal_eq _ _ _ _ _ Hlist H2 Hd).
    do 2 f_equal. apply mem_eq; [|done].
    apply (is_list_nodes_eq _ _ _ _ _ Hlist H2). simpl. intros b Hb.
    destruct (decide (b = a)) as [->|Hba].
    + by rewrite lookup_delete_eq.
    + rewrite lookup_delete_ne by done.
      rewrite lookup_unlinked_other; cycle 1.
      { simpl. by apply not_elem_of_cons. }
      apply lookup_added_other; [done|].
      intros Ht. apply Hb. exact (boundary_in_list l m xs Fhead b Hlist Ht).
Qed.

End RoundTrip.

(** ** Nodes outside the list *)

Section Frame.
Context {T fn : Type}.
Implicit Types (l : list_sentinal fn) (m : mem T fn).
Implicit Types (h : gmap addr (list_node T)) (xs : list (addr * T)).

Lemma lookup_deleted_other h xs i e b :
  b ∉ xs.*1 -> e ∈ xs.*1 -> delete e (unlinked h xs i) !! b = h !! b.
Proof.
  intros Hb He. rewrite lookup_delete_ne by (by intros ->).
  by apply lookup_unlinked_other.
Qed.

Lemma lookup_in_fst xs i e v : xs !! i = Some (e, v) -> e ∈ xs.*1.
Proof.
  intros Hi. apply list_elem_of_fmap. exists (e, v). split; [done|].
  eapply list_elem_of_lookup_2, Hi.
Qed.

(** A macro applied to a list keeps it a list and leaves every
    allocated node outside it as it was. *)
Lemma step_spec l m xs l' m' :
  is_list l m xs -> step l m l' m' ->
  (exists xs', is_list l' m' xs')
  /\ (forall b n, b ∉ xs.*1 -> nodes m !! b = Some n ->
        nodes m' !! b = Some n).
Proof.
  intros Hlist Hstep.
  destruct Hstep as
    [l m v r l' m' Hrun
    |l m v r l' m' Hrun
    |l m e r l' m' Hmem Hrun
    |l m e l' m' Hmem Hrun
    |l m v l' m' Hrun
    |l m v l' m' Hrun
    |l m fuel l' m' Hrun].
  - destruct (LIST_ADD_inv _ _ _ _ _ _ _ _ Hrun) as [a Hm].
    rewrite (LIST_APPEND_run _ _ _ _ _ Hlist Hm) in Hrun.
    injection Hrun as _ <- <-. destruct (malloc_inv _ _ Hm) as [Hfresh Ha].
    split; [eexists; by apply is_list_appended|].
    intros b n Hb Hn. simpl. rewrite lookup_added_other; [done|congruence|].
    intros Ht. apply Hb. exact (boundary_in_list l m xs Ftail b Hlist Ht).
  - destruct (LIST_ADD_inv _ _ _ _ _ _ _ _ Hrun) as [a Hm].
    rewrite (LIST_PREPEND_run _ _ _ _ _ Hlist Hm) in Hrun.
    injection Hrun as _ <- <-. destruct (malloc_inv _ _ Hm) as [Hfresh Ha].
    split; [eexists; by apply is_list_prepended|].
    intros b n Hb Hn. simpl. rewrite lookup_added_other; [done|congruence|].
    intros Ht. apply Hb. exact (boundary_in_list l m xs Fhead b Hlist Ht).
  - rewrite (il_head _ _ _ Hlist) in Hmem.
    destruct (linked_from_lookup _ _ _ _ (il_linked _ _ _ Hlist) Hmem)
      as (i & v & Hi).
    rewrite (LIST_REMOVE_run _ _ _ _ _ _ Hlist Hi) in Hrun.
    injection Hrun as _ <- <-.
    split; [eexists; by eapply is_list_unlinked|].
    intros b n Hb Hn. simpl. by rewrite lookup_unlinked_other.
  - rewrite (il_head _ _ _ Hlist) in Hmem.
    destruct (linked_from_lookup _ _ _ _ (il_linked _ _ _ Hlist) Hmem)
      as (i & v & Hi).
    rewrite (LIST_DEL_run _ _ _ _ _ _ Hlist Hi) in Hrun.
    injection Hrun as <- <-.
    split; [eexists; by eapply is_list_deleted|].
    intros b n Hb Hn. simpl.
    rewrite lookup_deleted_other; eauto using lookup_in_fst.
  - destruct (LIST_POP_inv _ _ _ _ _ Hlist Hrun) as (i & e & w & Hi & Hs).
    unfold LIST_POPF in Hrun.
    rewrite (LIST_POP_run _ _ _ _ _ _ _ Hlist Hi Hs) in Hrun.
    injection Hrun as _ <- <-.
    split; [eexists; by eapply is_list_deleted|].
    intros b n Hb Hn. simpl.
    rewrite lookup_deleted_other; eauto using lookup_in_fst.
  - destruct (LIST_POP_inv _ _ _ _ _ Hlist Hrun) as (i & e & w & Hi & Hs).
    unfold LIST_POPB in Hrun.
    rewrite (LIST_POP_run _ _ _ _ _ _ _ Hlist Hi Hs) in Hrun.
    injection Hrun as _ <- <-.
    split; [eexists; by eapply is_list_deleted|].
    intros b n Hb Hn. simpl.
    rewrite lookup_deleted_other; eauto using lookup_in_fst.
  - pose proof (LIST_DESTROY_inv _ _ _ _ _ _ Hlist Hrun) as Hd.
    split; [eexists; by eapply destroyed_is_list|].
    intros b n Hb Hn. by rewrite (de_others _ _ _ _ _ Hd).
Qed.

(** X7: the macros touch no node outside their list: after any of
    them, every other allocated node is as it was, and a second list
    in the same memory that shares no node with the first is still the
    same list. *)
Theorem other_list_untouched l m xs l' m' l2 ys :
  is_list l m xs -> step l m l' m' ->
  is_list l2 m ys -> (forall b, b ∈ ys.*1 -> b ∉ xs.*1) ->
  is_list l2 m' ys
  /\ (forall b n, b ∉ xs.*1 -> nodes m !! b = Some n ->
        nodes m' !! b = Some n).
Proof.
  intros Hlist Hstep Hlist2 Hdisj.
  destruct (step_spec _ _ _ _ _ Hlist Hstep) as [[xs' Hlist'] Hframe].
  split; [|done].
  destruct Hlist2 as [Hnd Hl Hh Ht Hlen _]. split; try done.
  - intros i b v Hi. apply Hframe; [|by apply Hl].
    eapply Hdisj, lookup_in_fst, Hi.
  - apply Hlist'.
Qed.

(** X8: given a variable that holds a node linked into the list,
    [LIST_REMOVE] unlinks the node but neither frees nor clears it: the
    node stays allocated with its entry and its old links, and can no
    longer be reached from [head]. *)
Theorem removed_node_kept l m xs i e v :
  is_list l m xs -> xs !! i = Some (e, v) ->
  exists l' m',
    LIST_REMOVE l (local (Some e)) m = Ret ((length l, l'), m')
    /\ nodes m' !! e = nodes m !! e
    /\ load_entry (Some e) m' = Ret (v, m')
    /\ ~ linked_from (nodes m') (head l') e.
Proof.
  intros Hlist Hi. eexists _, _.
  split; [by eapply LIST_REMOVE_run|].
  pose proof (is_list_unlinked _ _ _ _ _ _ (calls m) Hlist Hi) as Hlist'.
  assert (unlinked (nodes m) xs i !! e = nodes m !! e) as He.
  { rewrite (il_linked _ _ _ Hlist _ _ _ Hi).
    apply lookup_unlinked_self; [apply Hlist|apply Hlist|done]. }
  split; [done|]. split.
  - erewrite load_entry_eq; cycle 1.
    { simpl. rewrite He. apply (il_linked _ _ _ Hlist _ _ _ Hi). }
    done.
  - intros Hfrom. rewrite (il_head _ _ _ Hlist') in Hfrom.
    destruct (linked_from_lookup _ _ _ _ (il_linked _ _ _ Hlist') Hfrom)
      as (j & w & Hj).
    apply (not_elem_of_delete_addr xs i e v); [apply Hlist|done|].
    eapply lookup_in_fst, Hj.
Qed.

(** X9: after [LIST_DEL] of the linked node that a variable holds the
    node is gone: reading its entry, or removing or deleting the node in
    that variable once more, is a use after free. *)
Theorem use_after_delete l m xs i e v :
  is_list l m xs -> xs !! i = Some (e, v) ->
  exists l' m',
    LIST_DEL l (local (Some e)) m = Ret (l', m')
    /\ load_entry (Some e) m' = Undef InvalidDeref
    /\ LIST_REMOVE l' (local (Some e)) m' = Undef InvalidDeref
    /\ LIST_DEL l' (local (Some e)) m' = Undef InvalidDeref.
Proof.
  intros Hlist Hi. eexists _, _.
  split; [by eapply LIST_DEL_run|].
  assert (forall d, load_link d (Some e)
            (Mem (delete e (unlinked (nodes m) xs i))
               (calls m ++ destructor_calls (destructor l) [v]))
          = Undef InvalidDeref) as Hload.
  { intros d. apply load_link_freed. apply lookup_delete_eq. }
  split; [|split].
  - unfold load_entry, bind, load. simpl. by rewrite lookup_delete_eq.
  - rewrite LIST_REMOVE_local. unfold bind at 1. by rewrite Hload.
  - rewrite LIST_DEL_local, LIST_REMOVE_local. unfold bind at 1, bind at 1.
    by rewrite Hload.
Qed.

End Frame.

(** ** The constructor, again *)

Section Constructor.
Context {T fn : Type}.
Implicit Types (l : list_sentinal fn) (m : mem T fn).
Implicit Types (h : gmap addr (list_node T)) (xs : list (addr * T)).

Lemma heap_top_appended m l a v :
  malloc m = Ret (Some a, m) ->
  heap_top (added (nodes m) Fnext Fprev (tail l) a v) <= heap_top (nodes m) + 1.
Proof.
  intros Hm. pose proof (heap_top_added (nodes m) Fnext Fprev (tail l) a v).
  pose proof (heap_top_nonneg (nodes m)).
  unfold malloc in Hm. case_decide; simplify_eq. lia.
Qed.

(** The constructor's loop, with the nodes it allocates and what it
    leaves alone. *)
Lemma new_list_loop_frame (initializer : list T) k :
  forall (i : nat) l m xs,
  is_list l m xs ->
  (i + k <= llen initializer)%nat ->
  heap_top (nodes m) + Z.of_nat k <= SIZE_MAX ->
  exists l' m' ys,
    new_list_loop initializer k (Z.of_nat i) l m = Ret (l', m')
    /\ is_list l' m' (xs ++ ys)
    /\ ys.*2 = take k (drop i initializer)
    /\ destructor l' = destructor l
    /\ calls m' = calls m
    /\ (forall b, b ∈ ys.*1 -> nodes m !! b = None)
    /\ (forall b, b ∉ (xs ++ ys).*1 -> nodes m' !! b = nodes m !! b).
Proof.
  induction k as [|k IH]; intros i l m xs Hlist Hik Hroom.
  - exists l, m, []. rewrite app_nil_r.
    split; [by destruct m|]. do 4 (split; [done|]). split; [|done].
    intros b Hb. by apply elem_of_nil in Hb.
  - destruct (lookup_lt_is_Some_2 initializer i) as [v Hv]; [lia|].
    set (a := Z.to_pos (heap_top (nodes m) + 1)).
    assert (malloc m = Ret (Some a, m)) as Hm by (apply malloc_room; lia).
    destruct (malloc_inv _ _ Hm) as [Hfresh Ha].
    pose proof (is_list_appended _ _ _ a v (calls m) Hlist Hfresh Ha) as Hlist'.
    destruct (IH (S i) _ _ _ Hlist')
      as (l' & m' & ys & Hrun & Hl' & Hys & Hd & Hc & Hnew & Hold).
    { lia. }
    { simpl. pose proof (heap_top_appended m l a v Hm). lia. }
    simpl in Hnew, Hold.
    exists l', m', ((a, v) :: ys).
    split; [|split; [|split; [|split; [|split; [|split]]]]].
    + simpl.
      erewrite bind_eq
        by (eapply LIST_APPEND_expr; [done|done|by apply read_array_eq]).
      replace (Z.of_nat i + 1) with (Z.of_nat (S i)) by lia. exact Hrun.
    + by rewrite <- app_assoc in Hl'.
    + by rewrite fmap_cons, Hys, (drop_S _ _ _ Hv).
    + rewrite Hd. apply destructor_added_sentinal.
    + by rewrite Hc.
    + intros b [->|Hb]%elem_of_cons; [done|].
      specialize (Hnew b Hb). unfold added in Hnew.
      apply lookup_insert_None in Hnew as [Hnew _].
      destruct (nodes m !! b) as [n|] eqn:E; [|done].
      destruct (proj2 (patch_is_Some Fnext (tail l) (Some a) (nodes m) b))
        as [n' Hn']; [eauto|congruence].
    + intros b Hb. rewrite <- app_assoc in Hold. rewrite Hold by done.
      rewrite fmap_app, fmap_cons in Hb.
      apply not_elem_of_app in Hb as [Hb1 [Hba Hb2]%not_elem_of_cons].
      apply lookup_added_other; [done|].
      intros Ht. apply Hb1. exact (boundary_in_list l m xs Ftail b Hlist Ht).
Qed.

(** X10: constructing a list from an array and destroying it calls the
    destructor once on each entry, in array order, and leaves the
    memory as it was before the constructor. *)
Theorem new_list_destroy_restores (vs : list T) (d : option fn) m fuel :
  heap_top (nodes m) + Z.of_nat (llen vs) <= SIZE_MAX ->
  (llen vs <= fuel)%nat ->
  bind (new_list (Some vs) (Z.of_nat (llen vs)) d) (LIST_DESTROY fuel) m
  = Ret (Sentinal NULL NULL 0 d,
         Mem (nodes m) (calls m ++ destructor_calls d vs)).
Proof.
  intros Hroom Hfuel.
  assert (heap_ok (nodes m)) as Hok by (apply heap_top_heap_ok; lia).
  destruct (new_list_loop_frame vs (llen vs) 0 _ m [] (is_list_empty d m Hok))
    as (l & m1 & xs & Hrun & Hlist & Hxs & Hd & Hc & Hnew & Hold); [lia|done|].
  simpl in Hlist, Hold, Hd. rewrite drop_0, take_ge in Hxs by done.
  assert (llen xs <= fuel)%nat as Hfuel'.
  { by rewrite <- (length_fmap snd), Hxs. }
  destruct (LIST_DESTROY_run _ _ _ _ Hlist Hfuel') as (l' & m' & Hrun' & Hdes).
  erewrite bind_eq; cycle 1.
  { unfold new_list. rewrite Nat2Z.id. exact Hrun. }
  rewrite Hrun'. destruct Hdes as [Hh Ht Hl Hd' Hc' Hfreed Hothers _].
  do 2 f_equal.
  - destruct l'; simpl in *. congruence.
  - apply mem_eq; simpl.
    + apply map_eq. intros b. destruct (decide (b ∈ xs.*1)) as [Hin|Hnin].
      * by rewrite Hfreed, Hnew.
      * by rewrite Hothers, Hold.
    + by rewrite Hc', Hc, Hd, Hxs.
Qed.

(** The constructor's loop reads past the end of the array when [len]
    exceeds its length.  The read follows the allocation of the node
    that would take the entry, so the heap needs room for that node
    too. *)
Lemma new_list_loop_out_of_bounds (initializer : list T) k :
  forall (i : nat) l m xs,
  is_list l m xs ->
  (i <= llen initializer)%nat -> (llen initializer < i + k)%nat ->
  heap_top (nodes m) + Z.of_nat (llen initializer - i) + 1 <= SIZE_MAX ->
  new_list_loop initializer k (Z.of_nat i) l m = Undef OutOfBounds.
Proof.
  induction k as [|k IH]; intros i l m xs Hlist Hi Hik Hroom; [lia|].
  simpl.
  set (a := Z.to_pos (heap_top (nodes m) + 1)).
  assert (malloc m = Ret (Some a, m)) as Hm by (apply malloc_room; lia).
  destruct (malloc_inv _ _ Hm) as [Hfresh Ha].
  destruct (initializer !! i) as [v|] eqn:Hv.
  - erewrite bind_eq
      by (eapply LIST_APPEND_expr; [done|done|by apply read_array_eq]).
    apply lookup_lt_Some in Hv.
    replace (Z.of_nat i + 1) with (Z.of_nat (S i)) by lia.
    eapply IH; [by apply is_list_appended|lia|lia|].
    simpl. pose proof (heap_top_appended m l a v Hm). lia.
  - unfold bind at 1, LIST_APPEND, _LIST_ADD.
    erewrite bind_eq by done. erewrite bind_eq by reflexivity.
    unfold bind at 1, read_array. by rewrite Nat2Z.id, Hv.
Qed.

(** X11: the constructor trusts [len]: when it exceeds the length of
    the array and the heap has room for one node more than the array
    has entries, the loop appends every entry, allocates one more node
    and reads the array past its end for it, and the behaviour is
    undefined. *)
Theorem new_list_out_of_bounds (initializer : list T) (len : Z) d m :
  Z.of_nat (llen initializer) < len ->
  heap_top (nodes m) + Z.of_nat (llen initializer) + 1 <= SIZE_MAX ->
  new_list (Some initializer) len d m = Undef OutOfBounds.
Proof.
  intros Hlen Hroom.
  assert (heap_ok (nodes m)) as Hok by (apply heap_top_heap_ok; lia).
  unfold new_list.
  apply (new_list_loop_out_of_bounds initializer (Z.to_nat len) 0 _ m []).
  - by apply is_list_empty.
  - lia.
  - lia.
  - rewrite Nat.sub_0_r. done.
Qed.

End Constructor.

(** ** The specification at the sample states *)

Import Sample.

Lemma heap_ok_mem0 : heap_ok (nodes mem0).
Proof. apply heap_top_heap_ok. vm_compute. discriminate. Qed.

Lemma new_list_mem0 :
  new_list (Some [10; 20; 30]) 3 (Some 7%nat) mem0 = Ret (list3, mem3).
Proof. vm_compute. reflexivity. Qed.

Lemma is_list3 : is_list list3 mem3 nodes3.
Proof.
  split.
  - apply (bool_decide_unpack _). vm_compute. exact I.
  - intros [|[|[|i]]] a v Hi; simplify_eq/=; vm_compute; reflexivity.
  - reflexivity.
  - reflexivity.
  - reflexivity.
  - apply heap_top_heap_ok. vm_compute. discriminate.
Qed.

(** C1, counterexample: on the empty list both pops read through the
    null boundary pointer instead of reporting an error. *)
Lemma pop_empty_dereferences_null :
  length list0 = 0
  /\ LIST_POPF list0 mem0 = Undef NullDeref
  /\ LIST_POPB list0 mem0 = Undef NullDeref
  /\ ~ (exists x, LIST_POPF list0 mem0 = Ret x)
  /\ ~ (exists x, LIST_POPB list0 mem0 = Ret x).
Proof. repeat split; intros [x Hx]; discriminate Hx. Qed.

Lemma pop_empty_undefined_witness :
  LIST_POPF list0 mem0 = Undef NullDeref
  /\ LIST_POPB list0 mem0 = Undef NullDeref.
Proof.
  apply (pop_empty_undefined list0 mem0 []).
  - apply is_list_empty, heap_ok_mem0.
  - reflexivity.
Defined.

(** C2: removing the middle node of the three-node list unlinks it,
    leaves its entry alone and calls no destructor; the value of the
    macro is 3, the length before the call, and the length afterwards
    is 2. *)
Theorem LIST_REMOVE_yields_old_length :
  LIST_REMOVE list3 (local (Some 2%positive)) mem3 = Ret ((3, list2), mem2)
  /\ length list3 = 3 /\ length list2 = 2.
Proof. repeat split. Qed.

Lemma new_list_traversal_witness :
  exists l m',
    new_list (Some [10; 20; 30]) 3 (Some 7%nat) mem0 = Ret (l, m')
    /\ forall fuel, (3 <= fuel)%nat ->
         LIST_FOR_EACH fuel l collect [] m' = Ret ([10; 20; 30], m')
         /\ LIST_FOR_EACH_REV fuel l collect [] m' = Ret ([30; 20; 10], m').
Proof.
  apply (new_list_traversal [10; 20; 30] (Some 7%nat) mem0).
  vm_compute. discriminate.
Defined.

Lemma malloc_mem3 : malloc mem3 = Ret (Some 4%positive, mem3).
Proof. vm_compute. reflexivity. Qed.

Lemma LIST_ADD_spec_witness :
  exists l' m',
    LIST_APPEND list3 (local 40) mem3 = Ret ((4, l'), m')
    /\ tail l' = Some 4%positive /\ head l' = Some 1%positive.
Proof.
  destruct (LIST_ADD_spec list3 mem3 nodes3 (local 40) 40 4%positive
              is_list3 malloc_mem3 eq_refl)
    as [(l' & m' & Hrun & _ & Ht & Hh & _) _].
  exists l', m'. repeat split; assumption.
Defined.

Lemma LIST_POP_spec_witness :
  exists l' m', LIST_POPF list3 mem3 = Ret ((10, l'), m') /\ length l' = 2.
Proof.
  destruct (LIST_POP_spec list3 mem3 nodes3 is_list3 ltac:(discriminate))
    as [(v & l' & m' & Hv & Hrun & Hlen & _) _].
  injection Hv as <-. exists l', m'. split; assumption.
Defined.

Lemma destructor_calls_spec_witness :
  exists l' m',
    LIST_DEL list3 (local (Some 2%positive)) mem3 = Ret (l', m')
    /\ calls m' = [(7%nat, 20)].
Proof.
  destruct (destructor_calls_spec list3 mem3 nodes3 1 2%positive 20
              is_list3 eq_refl) as [(l' & m' & Hrun & Hc) _].
  exists l', m'. split; assumption.
Defined.

Lemma reachable_list3 : reachable list3 mem3.
Proof.
  exact (reach_new_list mem0 _ _ _ _ _ heap_ok_mem0 new_list_mem0).
Qed.

Lemma reachable_invariant_witness :
  exists ns : list ptr,
    length list3 = Z.of_nat (llen ns)
    /\ forall fuel, (llen ns <= fuel)%nat ->
         LIST_FOR_EACH fuel list3 visit [] mem3 = Ret (ns, mem3)
         /\ LIST_FOR_EACH_REV fuel list3 visit [] mem3
            = Ret (reverse ns, mem3).
Proof. apply (reachable_invariant list3 mem3 reachable_list3). Defined.

Lemma LIST_DESTROY_spec_witness :
  exists l' m',
    LIST_DESTROY 3 list3 mem3 = Ret (l', m')
    /\ head l' = None /\ tail l' = None /\ length l' = 0
    /\ calls m' = [(7%nat, 10); (7%nat, 20); (7%nat, 30)].
Proof.
  destruct (LIST_DESTROY_spec list3 mem3 nodes3 3 is_list3 (le_n 3))
    as (l' & m' & Hrun & Hh & Ht & Hl & _ & Hc & _).
  exists l', m'. repeat split; assumption.
Defined.

Lemma new_list_pair :
  new_list (Some [10; 20]) 2 (Some 7%nat) mem0 = Ret (pair_list, pair_mem).
Proof. vm_compute. reflexivity. Qed.

(** C6, as the code has it: [LIST_DEL(&l, l.head)] on the list built from
    [{10, 20, 30}] unlinks the node of 10, but once [LIST_REMOVE] has
    moved [head] the argument [l.head] is the node of 20: the destructor
    is called on 20 and that node is freed while [head] points to it;
    the node of 10 is neither destroyed nor freed.  On a list of one node
    [head] is null after the removal, and [(l.head)->entry] reads through
    the null pointer. *)
Theorem LIST_DEL_head_argument :
  is_list list3 mem3 nodes3
  /\ LIST_DEL list3 (boundary_of Fhead) mem3
     = Ret (list3_head_deleted, mem3_head_deleted)
  /\ calls mem3_head_deleted = [(7%nat, 20)]
  /\ nodes mem3_head_deleted !! 1%positive
     = Some (Node (Some 2%positive) NULL 10)
  /\ nodes mem3_head_deleted !! 2%positive = None
  /\ head list3_head_deleted = Some 2%positive
  /\ LIST_DEL single_list (boundary_of Fhead) single_mem = Undef NullDeref.
Proof.
  split; [exact is_list3|].
  repeat split; vm_compute; reflexivity.
Qed.

(** C7, as the code has it: the list built from [{10, 20}] is a reachable
    state and its head is linked into it, yet [LIST_REMOVE(&l, l.head)]
    leaves [head] on the second node, [tail] null and [length] 1.  Once
    the macro has moved [head], its argument [l.head] is the second
    node, which is the tail, so the macro moves [tail] too.  The state
    that results represents no list. *)
Theorem LIST_REMOVE_head_argument :
  reachable pair_list pair_mem
  /\ linked_from (nodes pair_mem) (head pair_list) 1%positive
  /\ LIST_REMOVE pair_list (boundary_of Fhead) pair_mem
     = Ret ((2, pair_list_removed), pair_mem_removed)
  /\ head pair_list_removed = Some 2%positive
  /\ tail pair_list_removed = NULL
  /\ length pair_list_removed = 1
  /\ forall xs, ~ is_list pair_list_removed pair_mem_removed xs.
Proof.
  split.
  { exact (reach_new_list mem0 _ _ _ _ _ heap_ok_mem0 new_list_pair). }
  split.
  { eapply linked_here. vm_compute. reflexivity. }
  split; [vm_compute; reflexivity|].
  do 3 (split; [reflexivity|]).
  intros xs [_ _ Hh Ht _ _]. simpl in Hh, Ht.
  destruct xs as [|x xs]; [discriminate|].
  symmetry in Ht. apply fmap_None in Ht.
  apply lookup_ge_None in Ht. simpl in Ht. lia.
Qed.



Lemma new_list_null_initializer_witness :
  new_list None 5 (Some 7%nat) mem0 = Ret (list0, mem0)
  /\ exists l m' xs,
       new_list (Some [10; 20; 30]) 2 (Some 7%nat) mem0 = Ret (l, m')
       /\ is_list l m' xs /\ xs.*2 = [10; 20] /\ destructor l = Some 7%nat.
Proof.
  split.
  - apply (proj1 (@new_list_null_initializer Z nat)).
  - apply (proj2 (@new_list_null_initializer Z nat) [10; 20; 30] 2
             (Some 7%nat) mem0).
    + simpl. lia.
    + vm_compute. discriminate.
Defined.

Lemma is_list3_mem5 : is_list list3 mem5 nodes3.
Proof.
  split.
  - apply (bool_decide_unpack _). vm_compute. exact I.
  - intros [|[|[|i]]] a v Hi; simplify_eq/=; vm_compute; reflexivity.
  - reflexivity.
  - reflexivity.
  - reflexivity.
  - apply heap_top_heap_ok. vm_compute. discriminate.
Qed.

Lemma is_list4_mem5 : is_list list4 mem5 nodes4.
Proof.
  split.
  - apply (bool_decide_unpack _). vm_compute. exact I.
  - intros [|i] a v Hi; simplify_eq/=; vm_compute; reflexivity.
  - reflexivity.
  - reflexivity.
  - reflexivity.
  - apply heap_top_heap_ok. vm_compute. discriminate.
Qed.

Lemma safe_delete_if_witness :
  exists l' m',
    LIST_FOR_EACH_SAFE 3 list3 (delete_if big) list3 mem3 = Ret (l', m')
    /\ is_list l' m' [(1%positive, 10)]
    /\ calls m' = [(7%nat, 20); (7%nat, 30)].
Proof.
  destruct (safe_delete_if list3 mem3 nodes3 big 3 is_list3 (le_n 3))
    as (l' & m' & Hrun & Hl' & Hc & _).
  exists l', m'. split; [exact Hrun|split; [exact Hl'|exact Hc]].
Defined.

Lemma safe_delete_if_rev_witness :
  exists l' m',
    LIST_FOR_EACH_REV_SAFE 3 list3 (delete_if big) list3 mem3 = Ret (l', m')
    /\ is_list l' m' [(1%positive, 10)]
    /\ calls m' = [(7%nat, 30); (7%nat, 20)].
Proof.
  destruct (safe_delete_if_rev list3 mem3 nodes3 big 3 is_list3 (le_n 3))
    as (l' & m' & Hrun & Hl' & Hc & _).
  exists l', m'. split; [exact Hrun|split; [exact Hl'|exact Hc]].
Defined.

Lemma safe_traversal_order_witness :
  LIST_FOR_EACH_SAFE 3 list3 collect [] mem3 = Ret ([10; 20; 30], mem3)
  /\ LIST_FOR_EACH_REV_SAFE 3 list3 collect [] mem3 = Ret ([30; 20; 10], mem3).
Proof. apply (safe_traversal_order list3 mem3 nodes3 3 is_list3 (le_n 3)). Defined.

Lemma unsafe_delete_undefined_witness :
  LIST_FOR_EACH 3 list3 delete_each list3 mem3 = Undef InvalidDeref
  /\ LIST_FOR_EACH_REV 3 list3 delete_each list3 mem3 = Undef InvalidDeref.
Proof.
  apply (unsafe_delete_undefined list3 mem3 nodes3 3 is_list3).
  - discriminate.
  - lia.
Defined.

Lemma update_maps_entries_witness :
  exists m',
    LIST_FOR_EACH 3 list3 (update Z.succ) tt mem3 = Ret (tt, m')
    /\ LIST_FOR_EACH 3 list3 collect [] m' = Ret ([11; 21; 31], m').
Proof.
  destruct (update_maps_entries list3 mem3 nodes3 Z.succ 3 is_list3 (le_n 3))
    as (m' & Hrun & _ & Hcol & _).
  exists m'. split; assumption.
Defined.

Lemma add_pop_round_trip_witness :
  bind (LIST_APPEND list3 (local 40)) (fun r => LIST_POPB r.2) mem3
  = Ret ((40, list3), mem3)
  /\ bind (LIST_PREPEND list3 (local 40)) (fun r => LIST_POPF r.2) mem3
     = Ret ((40, list3), mem3).
Proof.
  apply (add_pop_round_trip list3 mem3 nodes3 40 4%positive is_list3 malloc_mem3).
Defined.

Lemma popf_mem5 : LIST_POPF list3 mem5 = Ret ((10, list3_popped), mem5_popped).
Proof. vm_compute. reflexivity. Qed.

Lemma other_list_untouched_witness :
  LIST_POPF list3 mem5 = Ret ((10, list3_popped), mem5_popped)
  /\ is_list list4 mem5_popped nodes4.
Proof.
  split; [exact popf_mem5|].
  eapply (other_list_untouched list3 mem5 nodes3 list3_popped mem5_popped
            list4 nodes4 is_list3_mem5).
  - exact (step_popf _ _ _ _ _ popf_mem5).
  - exact is_list4_mem5.
  - intros b Hb. apply (bool_decide_unpack _).
    apply list_elem_of_singleton in Hb as ->. vm_compute. exact I.
Defined.

Lemma removed_node_kept_witness :
  exists l' m',
    LIST_REMOVE list3 (local (Some 2%positive)) mem3 = Ret ((length list3, l'), m')
    /\ nodes m' !! 2%positive = nodes mem3 !! 2%positive
    /\ ~ linked_from (nodes m') (head l') 2%positive.
Proof.
  destruct (removed_node_kept list3 mem3 nodes3 1 2%positive 20
              is_list3 eq_refl) as (l' & m' & Hrun & He & _ & Hn).
  exists l', m'. split; [exact Hrun|split; [exact He|exact Hn]].
Defined.

Lemma use_after_delete_witness :
  exists l' m',
    LIST_DEL list3 (local (Some 2%positive)) mem3 = Ret (l', m')
    /\ LIST_DEL l' (local (Some 2%positive)) m' = Undef InvalidDeref.
Proof.
  destruct (use_after_delete list3 mem3 nodes3 1 2%positive 20
              is_list3 eq_refl) as (l' & m' & Hrun & _ & _ & Hd).
  exists l', m'. split; assumption.
Defined.

Lemma new_list_destroy_restores_witness :
  bind (new_list (Some [10; 20; 30]) 3 (Some 7%nat)) (LIST_DESTROY 3) mem0
  = Ret (Sentinal NULL NULL 0 (Some 7%nat),
         Mem (nodes mem0) [(7%nat, 10); (7%nat, 20); (7%nat, 30)]).
Proof.
  apply (new_list_destroy_restores [10; 20; 30] (Some 7%nat) mem0 3).
  - vm_compute. discriminate.
  - simpl. lia.
Defined.

Lemma new_list_out_of_bounds_witness :
  new_list (Some [10; 20; 30]) 4 (Some 7%nat) mem0 = Undef OutOfBounds.
Proof.
  apply (new_list_out_of_bounds [10; 20; 30] 4 (Some 7%nat) mem0).
  - simpl. lia.
  - vm_compute. discriminate.
Defined.
